(** * Call-target resolution heuristics (defidisco): a shallow embedding

    The development follows the TypeScript module that holds
    [VariableChainHeuristic], [InterfaceNameHeuristic],
    [FunctionSignatureHeuristic], [HeuristicEngine] and
    [parseVariableAssignments].

    Modelling choices, fixed once for the whole file:
    - a JavaScript string is a [string] whose characters are the code units
      below 256 (the Latin-1 range); [toLowerCase], [\w] and [\s] are the
      restrictions of the JavaScript notions to that range;
    - a [Map<string, string>] and a plain object used as a dictionary are
      [gmap string _];
    - a [number] that holds a confidence is an integer [Z]; a count is a
      [nat];
    - the optional progress callback is modelled by what it receives: the
      list of messages, in order; a callback that throws, or whose promise
      rejects, is left out;
    - a graph address is never the name of a member of [Object.prototype],
      so that [discovered.abis[address]] is a plain dictionary lookup. *)

From Stdlib Require Import ZArith NArith Ascii String List Bool Lia.
From stdpp Require Import base option list strings gmap.

Local Open Scope string_scope.
Local Open Scope Z_scope.
Local Open Scope nat_scope.
Local Open Scope list_scope.

(* ======================================================================= *)
(** ** Characters and strings *)
(* ======================================================================= *)

Module Js.

Definition code (c : ascii) : N := N_of_ascii c.

Definition between (lo hi : N) (c : ascii) : bool :=
  (N.leb lo (code c) && N.leb (code c) hi)%bool.

(** [\w] of a regular expression without the unicode flag: [A-Za-z0-9_]. *)
Definition is_word (c : ascii) : bool :=
  (between 48 57 c || between 65 90 c || between 97 122 c
   || N.eqb (code c) 95)%bool.

(** [\s] below 256: tab, line feed, vertical tab, form feed, carriage
    return, space and the no-break space. *)
Definition is_space (c : ascii) : bool :=
  (between 9 13 c || N.eqb (code c) 32 || N.eqb (code c) 160)%bool.

(** [String.prototype.toLowerCase] on one code unit below 256. *)
Definition lower_char (c : ascii) : ascii :=
  if (between 65 90 c
      || (between 192 222 c && negb (N.eqb (code c) 215)))%bool
  then ascii_of_N (code c + 32)
  else c.

Fixpoint toLowerCase (s : string) : string :=
  match s with
  | EmptyString => EmptyString
  | String c s' => String (lower_char c) (toLowerCase s')
  end.

(** [s.startsWith(p)] *)
Fixpoint startsWith (s p : string) {struct p} : bool :=
  match p, s with
  | EmptyString, _ => true
  | String _ _, EmptyString => false
  | String b p', String a s' => (Ascii.eqb a b && startsWith s' p')%bool
  end.

(** [s.slice(n)] for [0 <= n] *)
Fixpoint slice_from (n : nat) (s : string) : string :=
  match n, s with
  | O, _ => s
  | S n', String _ s' => slice_from n' s'
  | S _, EmptyString => EmptyString
  end.

(** [s.slice(0, n)] for [0 <= n] *)
Fixpoint slice_to (n : nat) (s : string) : string :=
  match n, s with
  | S n', String c s' => String c (slice_to n' s')
  | _, _ => EmptyString
  end.

(** [s.split('\n')] *)
Fixpoint split_lines (s : string) : list string :=
  match s with
  | EmptyString => [EmptyString]
  | String c s' =>
      if Ascii.eqb c "010"%char then EmptyString :: split_lines s'
      else match split_lines s' with
           | l :: ls => String c l :: ls
           | [] => [String c EmptyString]
           end
  end.

(** [xs.join(sep)] *)
Definition join (sep : string) (xs : list string) : string :=
  String.concat sep xs.

(** truthiness of a string: every string but the empty one *)
Definition truthy (s : string) : bool :=
  match s with EmptyString => false | String _ _ => true end.

(** [a || b] on an optional string: the first truthy operand, else [b]. *)
Definition or_else (a : option string) (b : string) : string :=
  match a with
  | Some s => if truthy s then s else b
  | None => b
  end.

(** Decimal rendering of a non-negative integer, as a template literal
    prints it. *)
Definition digit (n : nat) : ascii := ascii_of_nat (48 + n).

Fixpoint nat_digits (fuel n : nat) (acc : string) : string :=
  match fuel with
  | O => acc
  | S fuel' =>
      let acc' := String (digit (n mod 10)) acc in
      if Nat.eqb (n / 10) 0 then acc' else nat_digits fuel' (n / 10) acc'
  end.

Definition string_of_nat (n : nat) : string := nat_digits (S n) n EmptyString.

Definition string_of_Z (z : Z) : string :=
  match z with
  | Z0 => "0"
  | Zpos p => string_of_nat (Pos.to_nat p)
  | Zneg p => "-" +:+ string_of_nat (Pos.to_nat p)
  end.

End Js.

(* ======================================================================= *)
(** ** Data model *)
(* ======================================================================= *)

(** The fields of [ExternalCall] that the heuristics read. *)
Record ExternalCall := {
  storageVariable : string;
  interfaceType : string;
  calledFunction : string;
}.

(** A recorded state-variable value. Only [typeof value === 'string'] is ever
    asked of it, so arrays and objects are one constructor. *)
Inductive ContractValue :=
| VString (s : string)
| VNumber (n : Z)
| VBoolean (b : bool)
| VObject.

(** One entry of [DiscoveryOutput.entries]: the fields read by this module.
    [e_type] is the string tag compared with ['Contract']; an entry without a
    [values] field has [e_values = None]. *)
Record DiscoveredEntry := {
  e_address : string;
  e_name : option string;
  e_type : string;
  e_values : option (gmap string ContractValue);
}.

Record DiscoveryOutput := {
  entries : list DiscoveredEntry;
  abis : gmap string (list string);
}.

Record HeuristicMatch := {
  m_address : string;
  m_contractName : option string;
}.

Record HeuristicResult := {
  matches : list HeuristicMatch;
  confidence : Z;
}.

Record HeuristicContext := {
  call : ExternalCall;
  callerContractAddress : string;
  discovered : DiscoveryOutput;
  variableAssignments : gmap string string;
}.

Record ResolutionHeuristic := {
  h_name : string;
  h_description : string;
  apply : HeuristicContext → option HeuristicResult;
}.

(** [ResolutionCandidate] as the engine builds it: address and optional name. *)
Record ResolutionCandidate := {
  c_address : string;
  c_contractName : option string;
}.

Record HeuristicEngineResult := {
  heuristicName : string;
  d_matches : list ResolutionCandidate;
  d_confidence : Z;
}.

(* ======================================================================= *)
(** ** Variable-chain heuristic: the bounded walk *)
(* ======================================================================= *)

(** A [while] loop: [None] only when the fuel runs out before the condition
    turns false. *)
Fixpoint while_loop {St : Type} (fuel : nat) (cond : St → bool)
    (body : St → St) (st : St) : option St :=
  match fuel with
  | O => None
  | S fuel' =>
      if cond st then while_loop fuel' cond body (body st) else Some st
  end.

Module VariableChain.

(** The two locals of [resolveVariableChain]. *)
Record loop_state := { current : string; depth : nat }.

(** [assignments.has(current) && depth < maxDepth] *)
Definition loop_cond (assignments : gmap string string) (maxDepth : nat)
    (st : loop_state) : bool :=
  (bool_decide (is_Some (assignments !! current st))
   && Nat.ltb (depth st) maxDepth)%bool.

(** [current = assignments.get(current)!; depth++] *)
Definition loop_body (assignments : gmap string string)
    (st : loop_state) : loop_state :=
  {| current := default (current st) (assignments !! current st);
     depth := S (depth st) |}.

Definition run_loop (fuel : nat) (variable : string)
    (assignments : gmap string string) (maxDepth : nat) : option loop_state :=
  while_loop fuel (loop_cond assignments maxDepth) (loop_body assignments)
    {| current := variable; depth := 0 |}.

Definition defaultMaxDepth : nat := 10.

(** [resolveVariableChain(variable, assignments, maxDepth = 10)]; the loop
    needs at most [maxDepth] iterations and one last test. *)
Definition resolveVariableChainAt (variable : string)
    (assignments : gmap string string) (maxDepth : nat) : string :=
  match run_loop (S maxDepth) variable assignments maxDepth with
  | Some st => current st
  | None => variable
  end.

Definition resolveVariableChain (variable : string)
    (assignments : gmap string string) : string :=
  resolveVariableChainAt variable assignments defaultMaxDepth.

(** [follows m v n x]: [x] is reached from [v] by [n] hops, each one the
    map entry of the name before it. *)
Inductive follows (m : gmap string string) (v : string) :
    nat → string → Prop :=
| follows_here : follows m v 0 v
| follows_hop n x y :
    follows m v n x → m !! x = Some y → follows m v (S n) y.

End VariableChain.

(* ======================================================================= *)
(** ** The regular expressions of the module *)
(* ======================================================================= *)

Module Regex.

(** Character classes that occur: [\w], [\s] and a negated one-character
    class such as [[^)]]. *)
Inductive cclass := Word | Space | NotChar (c : ascii).

Definition in_class (k : cclass) (c : ascii) : bool :=
  match k with
  | Word => Js.is_word c
  | Space => Js.is_space c
  | NotChar x => negb (Ascii.eqb c x)
  end.

(** The pieces of a pattern anchored with [^]: literal text, and a class under
    a greedy quantifier ([min = 0] for [*], [min = 1] for [+]), inside a
    capturing group or not. *)
Inductive item :=
| Lit (s : string)
| Rep (k : cclass) (min : nat) (capture : bool).

(** Greedy repetition with backtracking: the longest run is tried first, and
    a shorter one only when the rest of the pattern fails after it. [acc] is
    what the repetition has consumed so far; [k] is the rest of the pattern. *)
Fixpoint greedy {R : Type} (p : ascii → bool) (min : nat) (acc s : string)
    (k : string → string → option R) : option R :=
  let stop := if Nat.eqb min 0 then k acc s else None in
  match s with
  | String x s' =>
      if p x then
        match greedy p (pred min) (acc +:+ String x EmptyString) s' k with
        | Some r => Some r
        | None => stop
        end
      else stop
  | EmptyString => stop
  end.

(** [s.match(re)] for an anchored pattern without flags: the captured groups
    in order, or [None] for [null]. *)
Fixpoint match_items (items : list item) (s : string) : option (list string) :=
  match items with
  | [] => Some []
  | Lit l :: rest =>
      if Js.startsWith s l
      then match_items rest (Js.slice_from (String.length l) s)
      else None
  | Rep c min cap :: rest =>
      greedy (in_class c) min EmptyString s
        (fun consumed s' =>
           match match_items rest s' with
           | Some caps => Some (if cap then consumed :: caps else caps)
           | None => None
           end)
  end.

(** [/^function\s+(\w+)\(/] *)
Definition function_re : list item :=
  [Lit "function"; Rep Space 1 false; Rep Word 1 true; Lit "("].

(** [/^\s*(\w+)\([^)]+\)\s*:=\s*(\w+)\(/] *)
Definition assign_re : list item :=
  [Rep Space 0 false; Rep Word 1 true; Lit "(";
   Rep (NotChar ")"%char) 1 false; Lit ")";
   Rep Space 0 false; Lit ":="; Rep Space 0 false;
   Rep Word 1 true; Lit "("].

End Regex.

(* ======================================================================= *)
(** ** The three heuristics *)
(* ======================================================================= *)

(** [matches.push({ address: entry.address, contractName: entry.name })] *)
Definition push_entry (ms : list HeuristicMatch) (entry : DiscoveredEntry) :
    list HeuristicMatch :=
  ms ++ [{| m_address := e_address entry; m_contractName := e_name entry |}].

Module VariableChainHeuristic.

Definition name : string := "variable-chain".
Definition description : string :=
  "Follow variable assignment chain to state variable".

Definition is_caller (callerContractAddress : string) (e : DiscoveredEntry) :
    bool :=
  (String.eqb (Js.toLowerCase (e_address e))
     (Js.toLowerCase callerContractAddress)
   && String.eqb (e_type e) "Contract")%bool.

Definition has_address (value : string) (e : DiscoveredEntry) : bool :=
  String.eqb (Js.toLowerCase (e_address e)) (Js.toLowerCase value).

Definition apply (context : HeuristicContext) : option HeuristicResult :=
  let call := call context in
  let callerContractAddress := callerContractAddress context in
  let discovered := discovered context in
  let variableAssignments := variableAssignments context in
  let resolvedVar :=
    VariableChain.resolveVariableChain (storageVariable call)
      variableAssignments in
  if String.eqb resolvedVar (storageVariable call) then None
  else
    match find (is_caller callerContractAddress) (entries discovered) with
    | None => None
    | Some contract =>
        match e_values contract with
        | None => None
        | Some values =>
            match values !! resolvedVar with
            | Some (VString value) =>
                if Js.startsWith value "eth:" then
                  let resolvedContract :=
                    find (has_address value) (entries discovered) in
                  Some {| matches :=
                            [{| m_address := value;
                                m_contractName :=
                                  match resolvedContract with
                                  | Some e => e_name e
                                  | None => None
                                  end |}];
                          confidence := 100 |}
                else None
            | _ => None
            end
        end
    end.

End VariableChainHeuristic.

Module InterfaceNameHeuristic.

Definition name : string := "interface-name".
Definition description : string :=
  "Match interface name to contract name (strip I prefix)".

Definition calculateConfidence (matchCount : nat) : Z :=
  if Nat.eqb matchCount 1 then 90%Z
  else if Nat.eqb matchCount 2 then 60%Z
  else 40%Z.

(** One turn of the [for] loop over [discovered.entries]. *)
Definition visit (expectedContractName : string)
    (ms : list HeuristicMatch) (entry : DiscoveredEntry) :
    list HeuristicMatch :=
  if negb (String.eqb (e_type entry) "Contract") then ms
  else
    let contractName := Js.or_else (e_name entry) "" in
    if String.eqb (Js.toLowerCase contractName)
         (Js.toLowerCase expectedContractName)
    then push_entry ms entry
    else ms.

Definition apply (context : HeuristicContext) : option HeuristicResult :=
  let call := call context in
  let discovered := discovered context in
  let interfaceName := interfaceType call in
  if (negb (Js.startsWith interfaceName "I")
      || Nat.leb (String.length interfaceName) 1)%bool
  then None
  else
    let expectedContractName := Js.slice_from 1 interfaceName in
    let ms := fold_left (visit expectedContractName) (entries discovered) [] in
    if Nat.eqb (length ms) 0 then None
    else Some {| matches := ms;
                 confidence := calculateConfidence (length ms) |}.

End InterfaceNameHeuristic.

Module FunctionSignatureHeuristic.

Definition name : string := "function-signature".
Definition description : string :=
  "Match called function to contracts with that function in ABI".

Definition calculateConfidence (matchCount : nat) : Z :=
  if Nat.eqb matchCount 1 then 99%Z
  else if Nat.eqb matchCount 2 then 50%Z
  else 30%Z.

(** The callback of [abi.some]. *)
Definition names_function (functionName abiEntry : string) : bool :=
  if negb (Js.startsWith abiEntry "function ") then false
  else
    match Regex.match_items Regex.function_re abiEntry with
    | Some caps => String.eqb (nth 0 caps EmptyString) functionName
    | None => false
    end.

(** One turn of the [for] loop over [discovered.entries]. *)
Definition visit (discovered : DiscoveryOutput) (functionName : string)
    (ms : list HeuristicMatch) (entry : DiscoveredEntry) :
    list HeuristicMatch :=
  if negb (String.eqb (e_type entry) "Contract") then ms
  else
    match abis discovered !! e_address entry with
    | None => ms
    | Some abi =>
        let hasFunction := existsb (names_function functionName) abi in
        if hasFunction then push_entry ms entry else ms
    end.

Definition apply (context : HeuristicContext) : option HeuristicResult :=
  let call := call context in
  let discovered := discovered context in
  let functionName := calledFunction call in
  let ms := fold_left (visit discovered functionName) (entries discovered) [] in
  if Nat.eqb (length ms) 0 then None
  else Some {| matches := ms;
               confidence := calculateConfidence (length ms) |}.

End FunctionSignatureHeuristic.

Definition variableChainHeuristic : ResolutionHeuristic :=
  {| h_name := VariableChainHeuristic.name;
     h_description := VariableChainHeuristic.description;
     apply := VariableChainHeuristic.apply |}.

Definition interfaceNameHeuristic : ResolutionHeuristic :=
  {| h_name := InterfaceNameHeuristic.name;
     h_description := InterfaceNameHeuristic.description;
     apply := InterfaceNameHeuristic.apply |}.

Definition functionSignatureHeuristic : ResolutionHeuristic :=
  {| h_name := FunctionSignatureHeuristic.name;
     h_description := FunctionSignatureHeuristic.description;
     apply := FunctionSignatureHeuristic.apply |}.

(* ======================================================================= *)
(** ** Progress reporting: the two ways a message is delivered *)
(* ======================================================================= *)

(** [for (const x of xs) { st = body(st, x) }] in a monad. *)
Fixpoint for_of {M : Type → Type} `{MBind M, MRet M} {A St : Type}
    (xs : list A) (body : St → A → M St) (st : St) : M St :=
  match xs with
  | [] => mret st
  | x :: xs' => st' ← body st x; for_of xs' body st'
  end.

(** Synchronous code: a value, and the messages [onProgress] was called with
    on the way, oldest first. *)
Record SyncM (A : Type) := Sync { trace : list string; value : A }.
Arguments Sync {A} _ _.
Arguments trace {A} _.
Arguments value {A} _.

#[global] Instance sync_ret : MRet SyncM := λ A a, Sync [] a.
#[global] Instance sync_bind : MBind SyncM :=
  λ A B k m, let r := k (value m) in Sync (trace m ++ trace r) (value r).

(** An [async] function body: it is done, or it is suspended at an [await]
    of [onProgress?.(msg)] and goes on when resumed. [Await None] is the
    [await] of [undefined], when no callback was passed. *)
Inductive AsyncM (A : Type) :=
| Done (a : A)
| Await (msg : option string) (k : AsyncM A).
Arguments Done {A} _.
Arguments Await {A} _ _.

Fixpoint async_bind {A B : Type} (k : A → AsyncM B) (m : AsyncM A) :
    AsyncM B :=
  match m with
  | Done a => k a
  | Await msg m' => Await msg (async_bind k m')
  end.

#[global] Instance async_ret : MRet AsyncM := λ A a, Done a.
#[global] Instance async_mbind : MBind AsyncM := λ A B k m, async_bind k m.

(** Resuming an [async] body until it is done: the value the promise
    resolves to, and the messages delivered at its suspension points. *)
Fixpoint settle {A : Type} (m : AsyncM A) : SyncM A :=
  match m with
  | Done a => Sync [] a
  | Await msg k =>
      let r := settle k in
      Sync (match msg with Some s => s :: trace r | None => trace r end)
           (value r)
  end.

(** The number of [await]s an [async] body goes through. *)
Fixpoint suspensions {A : Type} (m : AsyncM A) : nat :=
  match m with
  | Done _ => 0
  | Await _ k => S (suspensions k)
  end.

(** [onProgress?.(msg)]; [onProgress] tells whether the callback was passed. *)
Definition emit (onProgress : bool) (msg : string) : SyncM unit :=
  Sync (if onProgress then [msg] else []) tt.

(** [await onProgress?.(msg)] *)
Definition emit_await (onProgress : bool) (msg : string) : AsyncM unit :=
  Await (if onProgress then Some msg else None) (Done tt).

(* ======================================================================= *)
(** ** Heuristic engine *)
(* ======================================================================= *)

(** [Array.prototype.sort(cmp)]: a stable sort; [a] stays before [b] unless
    [cmp a b > 0]. *)
Fixpoint sort_insert {A : Type} (cmp : A → A → Z) (x : A) (l : list A) :
    list A :=
  match l with
  | [] => [x]
  | y :: l' =>
      if (cmp x y <=? 0)%Z then x :: y :: l' else y :: sort_insert cmp x l'
  end.

Fixpoint sort {A : Type} (cmp : A → A → Z) (l : list A) : list A :=
  match l with
  | [] => []
  | x :: l' => sort_insert cmp x (sort cmp l')
  end.

Record HeuristicEngine := { heuristics : list ResolutionHeuristic }.

Definition newHeuristicEngine : HeuristicEngine := {| heuristics := [] |}.

Definition register (heuristic : ResolutionHeuristic)
    (engine : HeuristicEngine) : HeuristicEngine :=
  {| heuristics := heuristics engine ++ [heuristic] |}.

(** An element of the local array [results]. *)
Record Collected := {
  heuristic : ResolutionHeuristic;
  result : HeuristicResult;
}.

(** U+2192, written as its UTF-8 bytes. *)
Definition arrow : string :=
  String "226"%char (String "134"%char (String "146"%char EmptyString)).

Definition matchNames (ms : list HeuristicMatch) : string :=
  Js.join ", "
    (map (fun m => Js.or_else (m_contractName m) (Js.slice_to 14 (m_address m)))
       ms).

Definition msg_resolving (context : HeuristicContext) : string :=
  "    Resolving: " +:+ storageVariable (call context) +:+ " " +:+ arrow
  +:+ " " +:+ calledFunction (call context) +:+ "() ["
  +:+ interfaceType (call context) +:+ "]".

Definition msg_match (h : ResolutionHeuristic) (r : HeuristicResult) : string :=
  "      - " +:+ h_name h +:+ ": " +:+ Js.string_of_nat (length (matches r))
  +:+ " match(es) [" +:+ matchNames (matches r) +:+ "] " +:+ arrow
  +:+ " confidence: " +:+ Js.string_of_Z (confidence r) +:+ "%".

Definition msg_no_match (h : ResolutionHeuristic) : string :=
  "      - " +:+ h_name h +:+ ": no match".

Definition msg_winner_none : string := "      Winner: none".

Definition msg_winner (winner : Collected) : string :=
  "      Winner: " +:+ h_name (heuristic winner) +:+ " ("
  +:+ Js.string_of_Z (confidence (result winner)) +:+ "%) " +:+ arrow
  +:+ " " +:+ matchNames (matches (result winner)).

(** [(a, b) => b.result.confidence - a.result.confidence] *)
Definition by_confidence_desc (a b : Collected) : Z :=
  (confidence (result b) - confidence (result a))%Z.

Definition decision_of (winner : Collected) : HeuristicEngineResult :=
  {| heuristicName := h_name (heuristic winner);
     d_matches :=
       map (fun m => {| c_address := m_address m;
                        c_contractName := m_contractName m |})
         (matches (result winner));
     d_confidence := confidence (result winner) |}.

(** The body of the loop over [this.heuristics] in [resolve]. *)
Definition resolve_step (context : HeuristicContext) (onProgress : bool)
    (results : list Collected) (h : ResolutionHeuristic) :
    SyncM (list Collected) :=
  match apply h context with
  | Some r =>
      let results' := results ++ [{| heuristic := h; result := r |}] in
      emit onProgress (msg_match h r);; mret results'
  | None =>
      emit onProgress (msg_no_match h);; mret results
  end.

Definition resolve (engine : HeuristicEngine) (context : HeuristicContext)
    (onProgress : bool) : SyncM (option HeuristicEngineResult) :=
  emit onProgress (msg_resolving context);;
  results ← for_of (heuristics engine) (resolve_step context onProgress) [];
  if Nat.eqb (length results) 0 then
    emit onProgress msg_winner_none;; mret None
  else
    match sort by_confidence_desc results with
    | winner :: _ =>
        emit onProgress (msg_winner winner);; mret (Some (decision_of winner))
    | [] => mret None (* not reached: [results] is not empty *)
    end.

(** The body of the loop over [this.heuristics] in [resolveAsync]. *)
Definition resolveAsync_step (context : HeuristicContext) (onProgress : bool)
    (results : list Collected) (h : ResolutionHeuristic) :
    AsyncM (list Collected) :=
  match apply h context with
  | Some r =>
      let results' := results ++ [{| heuristic := h; result := r |}] in
      emit_await onProgress (msg_match h r);; mret results'
  | None =>
      emit_await onProgress (msg_no_match h);; mret results
  end.

Definition resolveAsync (engine : HeuristicEngine) (context : HeuristicContext)
    (onProgress : bool) : AsyncM (option HeuristicEngineResult) :=
  emit_await onProgress (msg_resolving context);;
  results ←
    for_of (heuristics engine) (resolveAsync_step context onProgress) [];
  if Nat.eqb (length results) 0 then
    emit_await onProgress msg_winner_none;; mret None
  else
    match sort by_confidence_desc results with
    | winner :: _ =>
        emit_await onProgress (msg_winner winner);;
        mret (Some (decision_of winner))
    | [] => mret None (* not reached: [results] is not empty *)
    end.

(** [createHeuristicEngine()] *)
Definition createHeuristicEngine : HeuristicEngine :=
  register functionSignatureHeuristic
    (register interfaceNameHeuristic
       (register variableChainHeuristic newHeuristicEngine)).

(* ======================================================================= *)
(** ** Variable assignment parsing *)
(* ======================================================================= *)

(** The body of the loop over the lines. *)
Definition parse_line (assignments : gmap string string) (line : string) :
    gmap string string :=
  match Regex.match_items Regex.assign_re line with
  | Some assignMatch =>
      let target := nth 0 assignMatch EmptyString in
      let source := nth 1 assignMatch EmptyString in
      if (Js.truthy target && Js.truthy source)%bool
      then <[target := source]> assignments
      else assignments
  | None => assignments
  end.

Definition parseVariableAssignments (slithirOutput : string) :
    gmap string string :=
  fold_left parse_line (Js.split_lines slithirOutput) ∅.

(* ======================================================================= *)
(** ** Notions used to state the properties *)
(* ======================================================================= *)

(** The match built from a graph entry. *)
Definition entry_match (e : DiscoveredEntry) : HeuristicMatch :=
  {| m_address := e_address e; m_contractName := e_name e |}.

(** The matches of an optional result; none when there is no result. *)
Definition matches_of (o : option HeuristicResult) : list HeuristicMatch :=
  match o with
  | Some r => matches r
  | None => []
  end.

(** What the engine collects: the results of the registered heuristics, in
    registration order. *)
Definition collect (context : HeuristicContext)
    (hs : list ResolutionHeuristic) : list Collected :=
  omap (fun h =>
          match apply h context with
          | Some r => Some {| heuristic := h; result := r |}
          | None => None
          end) hs.

(** The data-model invariant on a heuristic: a result has at least one
    match. *)
Definition returns_matches (h : ResolutionHeuristic) : Prop :=
  ∀ context r, apply h context = Some r → matches r ≠ [].

(** The trace line of one heuristic: a match line when it returned a result,
    a no-match line otherwise. *)
Definition heuristic_line (context : HeuristicContext)
    (h : ResolutionHeuristic) : string :=
  match apply h context with
  | Some r => msg_match h r
  | None => msg_no_match h
  end.

(** The last trace line: the winner, or that there is none. *)
Definition closing_line (context : HeuristicContext)
    (hs : list ResolutionHeuristic) : string :=
  match sort by_confidence_desc (collect context hs) with
  | winner :: _ => msg_winner winner
  | [] => msg_winner_none
  end.

(** The whole trace of one resolution: the opening line, one line for each
    registered heuristic in registration order, the closing line. *)
Definition expected_trace (context : HeuristicContext)
    (hs : list ResolutionHeuristic) : list string :=
  msg_resolving context :: map (heuristic_line context) hs
  ++ [closing_line context hs].

(* ======================================================================= *)
(** ** Sample graphs and calls *)
(* ======================================================================= *)

Module Sample.

Definition troveManager : DiscoveredEntry :=
  {| e_address := "eth:0xABCD"; e_name := Some "TroveManager";
     e_type := "Contract"; e_values := None |}.

Definition borrowerOperations : DiscoveredEntry :=
  {| e_address := "eth:0x1111"; e_name := Some "BorrowerOperations";
     e_type := "Contract";
     e_values := Some {[ "troveManager" := VString "eth:0xabcd" ]} |}.

Definition vault (address : string) : DiscoveredEntry :=
  {| e_address := address; e_name := Some "Vault";
     e_type := "Contract"; e_values := None |}.

Definition liquity : DiscoveryOutput :=
  {| entries := [borrowerOperations; troveManager];
     abis := {[ "eth:0xABCD" :=
                  ["event Liquidation(uint256 debt)";
                   "function liquidate(address borrower)"] ]} |}.

(** Scenario A: a cached state variable. *)
Definition cachedCall : HeuristicContext :=
  {| call := {| storageVariable := "troveManagerCached";
                interfaceType := "ITroveManager";
                calledFunction := "liquidate" |};
     callerContractAddress := "eth:0x1111";
     discovered := liquity;
     variableAssignments :=
       parseVariableAssignments
         "troveManagerCached(ITroveManager) := troveManager(ITroveManager)" |}.

(** Two contracts of the same name behind one interface. *)
Definition twoVaults : HeuristicContext :=
  {| call := {| storageVariable := "vault";
                interfaceType := "IVault";
                calledFunction := "deposit" |};
     callerContractAddress := "eth:0x1111";
     discovered := {| entries := [vault "eth:0x01"; vault "eth:0x02"];
                      abis := ∅ |};
     variableAssignments := ∅ |}.

(** Scenario D: nothing to go by. *)
Definition unknownCall : HeuristicContext :=
  {| call := {| storageVariable := "target";
                interfaceType := "Pool";
                calledFunction := "skim" |};
     callerContractAddress := "eth:0x1111";
     discovered := liquity;
     variableAssignments := ∅ |}.

(** A heuristic that always answers with one match and a set confidence. *)
Definition fixed (name : string) (conf : Z) : ResolutionHeuristic :=
  {| h_name := name;
     h_description := "fixed answer";
     apply := fun _ =>
       Some {| matches := [{| m_address := "eth:0x" +:+ name;
                              m_contractName := None |}];
               confidence := conf |} |}.

Definition tiedEngine : HeuristicEngine :=
  register (fixed "late" 70)
    (register (fixed "early" 70)
       (register (fixed "weak" 10) newHeuristicEngine)).

(** The cached call again, the recorded address written with an upper-case
    chain marker. *)
Definition cachedCallUpper : HeuristicContext :=
  {| call := call cachedCall;
     callerContractAddress := "eth:0x1111";
     discovered :=
       {| entries :=
            [{| e_address := "eth:0x1111";
                e_name := Some "BorrowerOperations";
                e_type := "Contract";
                e_values := Some {[ "troveManager" := VString "ETH:0xabcd" ]} |};
             troveManager];
          abis := abis liquity |};
     variableAssignments := variableAssignments cachedCall |}.

(** The cached call again, the caller and the recorded address in another
    casing, the chain marker left in lower case. *)
Definition cachedCallRecased : HeuristicContext :=
  {| call := call cachedCall;
     callerContractAddress := "ETH:0X1111";
     discovered :=
       {| entries :=
            [{| e_address := "Eth:0x1111";
                e_name := Some "BorrowerOperations";
                e_type := "Contract";
                e_values := Some {[ "troveManager" := VString "eth:0XABCD" ]} |};
             troveManager];
          abis := abis liquity |};
     variableAssignments := variableAssignments cachedCall |}.

End Sample.

(** Two strings that differ at most in the casing of their letters. *)
Definition same_letters (a b : string) : Prop :=
  Js.toLowerCase a = Js.toLowerCase b.

(** Two recorded values that differ at most in the casing of a string. *)
Definition recased_value (v v' : ContractValue) : Prop :=
  match v, v' with
  | VString s, VString s' => same_letters s s'
  | _, _ => v = v'
  end.

Definition recased_values (o o' : option (gmap string ContractValue)) : Prop :=
  match o, o' with
  | Some m, Some m' =>
      ∀ k, match m !! k, m' !! k with
           | Some v, Some v' => recased_value v v'
           | None, None => True
           | _, _ => False
           end
  | None, None => True
  | _, _ => False
  end.

(** Two graph entries that differ at most in the casing of their address and
    of their recorded string values. *)
Definition recased_entry (e e' : DiscoveredEntry) : Prop :=
  same_letters (e_address e) (e_address e')
  ∧ e_name e = e_name e'
  ∧ e_type e = e_type e'
  ∧ recased_values (e_values e) (e_values e').

(** Two contexts that differ at most in the casing of the address strings of
    the call context and of the graph. *)
Definition recased_context (c c' : HeuristicContext) : Prop :=
  call c = call c'
  ∧ variableAssignments c = variableAssignments c'
  ∧ same_letters (callerContractAddress c) (callerContractAddress c')
  ∧ Forall2 recased_entry (entries (discovered c)) (entries (discovered c')).

(** The recasing leaves alone whether a recorded string starts with the
    lower-case marker [eth:]. *)
Definition marker_kept (v v' : ContractValue) : Prop :=
  match v, v' with
  | VString s, VString s' => Js.startsWith s "eth:" = Js.startsWith s' "eth:"
  | _, _ => True
  end.

Definition markers_kept (c c' : HeuristicContext) : Prop :=
  Forall2
    (fun e e' =>
       ∀ m m' k v v',
         e_values e = Some m → e_values e' = Some m' →
         m !! k = Some v → m' !! k = Some v' → marker_kept v v')
    (entries (discovered c)) (entries (discovered c')).

(** Two results that name the same target: both absent, or the same
    confidence and, match by match, the same contract name and the same
    address up to casing. *)
Definition same_resolution (o o' : option HeuristicResult) : Prop :=
  match o, o' with
  | Some r, Some r' =>
      confidence r = confidence r'
      ∧ Forall2 (fun m m' => same_letters (m_address m) (m_address m')
                             ∧ m_contractName m = m_contractName m')
          (matches r) (matches r')
  | None, None => True
  | _, _ => False
  end.

(** Every character of [s] passes the test [p]. *)
Fixpoint all_in (p : ascii → bool) (s : string) : bool :=
  match s with
  | EmptyString => true
  | String c s' => (p c && all_in p s')%bool
  end.

(** What a pattern says, without the order in which alternatives are tried:
    [matches_items items s caps] when [s] starts with text that fits [items]
    piece by piece, the captured pieces being [caps]. *)
Inductive matches_items : list Regex.item → string → list string → Prop :=
| matches_end s :
    matches_items [] s []
| matches_lit l rest s caps :
    matches_items rest s caps →
    matches_items (Regex.Lit l :: rest) (l +:+ s) caps
| matches_rep c min cap rest run s caps :
    all_in (Regex.in_class c) run = true →
    min ≤ String.length run →
    matches_items rest s caps →
    matches_items (Regex.Rep c min cap :: rest) (run +:+ s)
      (if cap then run :: caps else caps).

(** No character belongs to both classes; the 256 characters are tried. *)
Definition class_disjoint (c c' : Regex.cclass) : bool :=
  forallb (fun n => negb (Regex.in_class c (ascii_of_nat n)
                          && Regex.in_class c' (ascii_of_nat n)))
    (seq 0 256).

(** What follows a repetition of [c] cannot begin with a character of [c]. *)
Definition first_outside (c : Regex.cclass) (rest : list Regex.item) : bool :=
  match rest with
  | Regex.Lit (String x _) :: _ => negb (Regex.in_class c x)
  | Regex.Rep c' (S _) _ :: _ => class_disjoint c c'
  | _ => false
  end.

(** A pattern in which every repetition ends where its class ends: there is
    then one way at most to fit a text, and backtracking finds nothing that
    the longest run misses. *)
Fixpoint unambiguous (items : list Regex.item) : bool :=
  match items with
  | [] => true
  | Regex.Lit _ :: rest => unambiguous rest
  | Regex.Rep c _ _ :: rest => (first_outside c rest && unambiguous rest)%bool
  end.

(** White space, possibly none. *)
Definition blank (s : string) : Prop := all_in Js.is_space s = true.

(** An identifier: one or more of the characters [A-Za-z0-9_]. *)
Definition identifier (s : string) : Prop :=
  s ≠ EmptyString ∧ all_in Js.is_word s = true.

(** The ABI entry [sig] reads: the word [function], white space, the
    identifier [f], an opening parenthesis, anything. *)
Definition function_signature_names (sig f : string) : Prop :=
  ∃ ws tail,
    sig = "function" +:+ ws +:+ f +:+ "(" +:+ tail
    ∧ ws ≠ EmptyString ∧ blank ws ∧ identifier f.

(** The line reads: optional white space, the identifier [target], a type
    annotation in parentheses, the token [:=] with optional white space
    around it, the identifier [source], an opening parenthesis, anything. *)
Definition assignment_shape (line target source : string) : Prop :=
  ∃ ws0 ty ws1 ws2 tail,
    line = ws0 +:+ target +:+ "(" +:+ ty +:+ ")" +:+ ws1 +:+ ":=" +:+ ws2
           +:+ source +:+ "(" +:+ tail
    ∧ blank ws0 ∧ identifier target
    ∧ ty ≠ EmptyString
    ∧ all_in (fun c => negb (Ascii.eqb c ")"%char)) ty = true
    ∧ blank ws1 ∧ blank ws2 ∧ identifier source.

(** The line feed, as a string. *)
Definition newline : string := String "010"%char EmptyString.

(* ======================================================================= *)
(** ** The admins inventory panel: its computations *)
(* ======================================================================= *)

Module AdminsInventory.

(** [LetterGrade], as the exhaustive [switch] of [getGradeColor] lists it. *)
Inductive LetterGrade := AAA | AA | A | BBB | BB | B | CCC | CC | C | D.

(** The table [gradeValues] inside the computation of [worstGrade]. *)
Definition gradeValues (g : LetterGrade) : Z :=
  match g with
  | AAA => 10 | AA => 9 | A => 8
  | BBB => 7 | BB => 6 | B => 5
  | CCC => 4 | CC => 3 | C => 2
  | D => 1
  end%Z.

Definition getGradeColor (grade : LetterGrade) : string :=
  match grade with
  | AAA | AA | A => "text-green-400"
  | BBB | BB | B => "text-yellow-400"
  | CCC | CC | C => "text-orange-400"
  | D => "text-red-400"
  end.

Record BadgeStyles := {
  backgroundColor : string;
  borderColor : string;
  color : string;
}.

Definition getGradeBadgeStyles (grade : LetterGrade) : BadgeStyles :=
  match grade with
  | AAA | AA | A =>
      {| backgroundColor := "rgba(20, 83, 45, 0.5)";
         borderColor := "rgba(34, 197, 94, 0.3)";
         color := "#4ade80" |}
  | BBB | BB | B =>
      {| backgroundColor := "rgba(113, 63, 18, 0.5)";
         borderColor := "rgba(234, 179, 8, 0.3)";
         color := "#facc15" |}
  | CCC | CC | C =>
      {| backgroundColor := "rgba(124, 45, 18, 0.5)";
         borderColor := "rgba(249, 115, 22, 0.3)";
         color := "#fb923c" |}
  | D =>
      {| backgroundColor := "rgba(127, 29, 29, 0.5)";
         borderColor := "rgba(239, 68, 68, 0.3)";
         color := "#f87171" |}
  end.

(** [s.replace(pat, repl)] for a string pattern and a replacement without
    [$]: the first occurrence of [pat] is replaced, if there is one. *)
Fixpoint replace (s pat repl : string) : string :=
  if Js.startsWith s pat then repl +:+ Js.slice_from (String.length pat) s
  else match s with
       | EmptyString => EmptyString
       | String c s' => String c (replace s' pat repl)
       end.

Definition zeroAddress : string :=
  "0x0000000000000000000000000000000000000000".

Definition isZeroAddress (address : string) : bool :=
  let normalized := replace (Js.toLowerCase address) "eth:" "" in
  String.eqb normalized zeroAddress.

(** What the panel reads of one function of an admin; [fn_grade] is [None]
    when the function carries no grade. *)
Record AdminFunction := {
  fn_contractAddress : string;
  fn_functionName : string;
  fn_grade : option LetterGrade;
}.

(** The callback of [reduce] in the computation of [worstGrade]. On a
    function without grade the comparison with [undefined] is false. *)
Definition worse (worst : option LetterGrade) (func : AdminFunction) :
    option LetterGrade :=
  match worst with
  | None => fn_grade func
  | Some w =>
      match fn_grade func with
      | Some g => if (gradeValues g <? gradeValues w)%Z then Some g else Some w
      | None => Some w
      end
  end.

(** [worstGrade] of [AdminSection], from [admin.functions] and
    [admin.likelihood] (an optional string, tested for truthiness). *)
Definition worstGrade (functions : list AdminFunction)
    (likelihood : option string) : option LetterGrade :=
  if (Nat.ltb 0 (length functions)
      && match likelihood with Some l => Js.truthy l | None => false end)%bool
  then
    fold_left worse
      (List.filter (fun func => match fn_grade func with
                                | Some _ => true
                                | None => false
                                end) functions)
      None
  else None.

(** The key under which [capitalMap] files an analysis and looks one up. *)
Definition capitalKey (contractAddress functionName : string) : string :=
  contractAddress +:+ ":" +:+ functionName.

Section CapitalMap.

(** [FunctionCapitalAnalysis] is declared elsewhere; the map reads two of its
    fields. *)
Context {FunctionCapitalAnalysis : Type}.
Context (contractAddress functionName : FunctionCapitalAnalysis → string).

(** [capitalMap] of [AdminSection]; [functionsWithCapital] is [None] when
    [hasCapitalData(admin)] is false. [new Map(pairs)] sets the pairs in
    order, a later pair replacing an earlier one of the same key. *)
Definition capitalMap
    (functionsWithCapital : option (list FunctionCapitalAnalysis)) :
    gmap string FunctionCapitalAnalysis :=
  match functionsWithCapital with
  | None => ∅
  | Some fcs =>
      fold_left
        (fun m fc => <[capitalKey (contractAddress fc) (functionName fc) := fc]> m)
        fcs ∅
  end.

(** [capitalMap.get(`${func.contractAddress}:${func.functionName}`)] *)
Definition capitalAnalysis
    (functionsWithCapital : option (list FunctionCapitalAnalysis))
    (func : AdminFunction) : option FunctionCapitalAnalysis :=
  capitalMap functionsWithCapital
  !! capitalKey (fn_contractAddress func) (fn_functionName func).

End CapitalMap.

(** A string without colon. *)
Definition colon_free (s : string) : Prop :=
  all_in (fun c => negb (Ascii.eqb c ":"%char)) s = true.

End AdminsInventory.

(* ======================================================================= *)
(** * Properties *)
(* ======================================================================= *)

(** stdpp keeps [simpl] from unfolding string concatenation; the proofs below
    compute with it. *)
#[local] Arguments String.append !s1 s2 : simpl nomatch.

(* ======================================================================= *)
(** ** Facts: the bounded walk of the variable-chain heuristic *)
(* ======================================================================= *)

Section ChainWalk.

Import VariableChain.

Variable assignments : gmap string string.

Lemma follows_front v y n x :
  assignments !! v = Some y →
  follows assignments y n x → follows assignments v (S n) x.
Proof.
  intros Hv Hf. induction Hf as [| n x z _ IH Hx].
  - apply follows_hop with (x := v); [apply follows_here | exact Hv].
  - apply follows_hop with (x := x); [exact IH | exact Hx].
Qed.

(** The loop started with [remaining] hops left before the bound. *)
Lemma loop_from maxDepth remaining :
  ∀ cur d, d + remaining = maxDepth →
  ∃ hops final,
    hops ≤ remaining
    ∧ (∀ fuel, hops < fuel →
         while_loop fuel (loop_cond assignments maxDepth)
           (loop_body assignments) {| current := cur; depth := d |}
         = Some {| current := final; depth := d + hops |})
    ∧ follows assignments cur hops final
    ∧ (hops < remaining → assignments !! final = None).
Proof.
  induction remaining as [| k IH]; intros cur d Hd.
  - exists 0, cur. split; [lia |]. split; [| split; [constructor | lia]].
    intros [| fuel] Hf; [lia |]. simpl. unfold loop_cond. simpl.
    replace (d <? maxDepth) with false by (symmetry; apply Nat.ltb_ge; lia).
    rewrite andb_false_r, Nat.add_0_r. reflexivity.
  - destruct (assignments !! cur) as [y |] eqn:Hcur.
    + destruct (IH y (S d) ltac:(lia)) as (hops & final & Hle & Hrun & Hfol & Hstop).
      exists (S hops), final. split; [lia |]. split; [| split].
      * intros [| fuel] Hf; [lia |]. simpl. unfold loop_cond at 1. simpl.
        rewrite Hcur. rewrite bool_decide_eq_true_2 by eauto.
        replace (d <? maxDepth) with true by (symmetry; apply Nat.ltb_lt; lia).
        simpl. unfold loop_body at 2. simpl. rewrite Hcur. simpl.
        rewrite (Hrun fuel) by lia. do 2 f_equal. lia.
      * eapply follows_front; eauto.
      * intros Hlt. apply Hstop. lia.
    + exists 0, cur. split; [lia |]. split; [| split; [constructor | auto]].
      intros [| fuel] Hf; [lia |]. simpl. unfold loop_cond. simpl.
      rewrite Hcur. rewrite bool_decide_eq_false_2 by (intros [? ?]; discriminate).
      simpl. rewrite Nat.add_0_r. reflexivity.
Qed.

(** C4. For every assignment map, cyclic or not, and every start name, the
    loop of [resolveVariableChain] stops: there is a number of hops, at most
    10, after which it has returned, whatever fuel beyond that it is given.
    The name returned is reached from the start by exactly that many hops,
    each one the map entry of the name before it, and when fewer than 10 hops
    were made the name returned has no entry in the map. *)
Theorem resolveVariableChain_bounded (variable : string) :
  ∃ hops final,
    hops ≤ 10
    ∧ (∀ fuel, hops < fuel →
         run_loop fuel variable assignments 10
         = Some {| current := final; depth := hops |})
    ∧ resolveVariableChain variable assignments = final
    ∧ follows assignments variable hops final
    ∧ (hops < 10 → assignments !! final = None).
Proof.
  destruct (loop_from 10 10 variable 0 eq_refl)
    as (hops & final & Hle & Hrun & Hfol & Hstop).
  exists hops, final. repeat split; auto.
  unfold resolveVariableChain, resolveVariableChainAt, defaultMaxDepth.
  unfold run_loop. rewrite Hrun by lia. reflexivity.
Qed.

End ChainWalk.

(** The swapped pair [a := b], [b := a]: ten hops, back at the start. *)
Example resolveVariableChain_cycle :
  VariableChain.run_loop 11 "a" {[ "a" := "b"; "b" := "a" ]} 10
  = Some {| VariableChain.current := "a"; VariableChain.depth := 10 |}.
Proof. vm_compute. reflexivity. Qed.

Lemma resolveVariableChain_bounded_witness :
  ∃ hops final,
    hops ≤ 10
    ∧ VariableChain.run_loop 11 "a" {[ "a" := "b"; "b" := "a" ]} 10
      = Some {| VariableChain.current := final;
                VariableChain.depth := hops |}.
Proof.
  destruct (resolveVariableChain_bounded {[ "a" := "b"; "b" := "a" ]} "a")
    as (hops & final & Hle & Hrun & _).
  exists hops, final. split; [exact Hle | apply Hrun; lia].
Defined.

(* ======================================================================= *)
(** ** Facts: the loops of the two scanning heuristics *)
(* ======================================================================= *)

Lemma push_entry_spec ms e : push_entry ms e = ms ++ [entry_match e].
Proof. reflexivity. Qed.

(** A loop that pushes the entries passing a test collects exactly those
    entries, in the order of the graph. *)
Lemma fold_visit_filter (visit : list HeuristicMatch → DiscoveredEntry → list HeuristicMatch)
    (keep : DiscoveredEntry → bool) :
  (∀ ms e, visit ms e = if keep e then push_entry ms e else ms) →
  ∀ es acc,
    fold_left visit es acc = acc ++ map entry_match (List.filter keep es).
Proof.
  intros Hvisit es. induction es as [| e es IH]; intros acc; simpl.
  - rewrite app_nil_r. reflexivity.
  - rewrite IH, Hvisit. destruct (keep e); simpl.
    + rewrite push_entry_spec, <- app_assoc. reflexivity.
    + reflexivity.
Qed.

Lemma step_table_cases (one two many : Z) (n : nat) :
  1 ≤ n →
  let c := if Nat.eqb n 1 then one else if Nat.eqb n 2 then two else many in
  (n = 1 → c = one) ∧ (n = 2 → c = two) ∧ (3 ≤ n → c = many).
Proof.
  intros Hn c. subst c. repeat split; intros H.
  - subst n. reflexivity.
  - subst n. reflexivity.
  - destruct n as [| [| [| n]]]; try lia. reflexivity.
Qed.

Lemma scan_result (ms : list HeuristicMatch) (conf : nat → Z) r :
  (if Nat.eqb (length ms) 0 then None
   else Some {| matches := ms; confidence := conf (length ms) |}) = Some r →
  matches r = ms ∧ confidence r = conf (length ms) ∧ 1 ≤ length ms.
Proof.
  destruct (Nat.eqb (length ms) 0) eqn:E; [discriminate |].
  intros [= <-]. apply Nat.eqb_neq in E. simpl. repeat split; lia.
Qed.

Lemma InterfaceName_apply_inv context r :
  InterfaceNameHeuristic.apply context = Some r →
  1 ≤ length (matches r)
  ∧ confidence r = InterfaceNameHeuristic.calculateConfidence (length (matches r)).
Proof.
  unfold InterfaceNameHeuristic.apply.
  destruct (_ || _)%bool; [discriminate |].
  intros H. apply scan_result in H as (-> & -> & Hn). auto.
Qed.

Lemma FunctionSignature_apply_inv context r :
  FunctionSignatureHeuristic.apply context = Some r →
  1 ≤ length (matches r)
  ∧ confidence r = FunctionSignatureHeuristic.calculateConfidence (length (matches r)).
Proof.
  unfold FunctionSignatureHeuristic.apply.
  intros H. apply scan_result in H as (-> & -> & Hn). auto.
Qed.

Lemma VariableChain_apply_inv context r :
  VariableChainHeuristic.apply context = Some r →
  length (matches r) = 1 ∧ confidence r = 100%Z.
Proof.
  unfold VariableChainHeuristic.apply.
  destruct (String.eqb _ _); [discriminate |].
  destruct (find _ _) as [contract |]; [| discriminate].
  destruct (e_values contract) as [values |]; [| discriminate].
  destruct (values !! _) as [[value | | |] |]; try discriminate.
  destruct (Js.startsWith value "eth:"); [| discriminate].
  intros [= <-]. auto.
Qed.

(** C2. Whenever one of the three heuristics returns a result, that result
    has at least one match and its confidence is the step function of the
    number of matches: function-signature 1 -> 99, 2 -> 50, 3 or more -> 30;
    interface-name 1 -> 90, 2 -> 60, 3 or more -> 40; variable-chain 100. *)
Theorem confidence_is_step_of_match_count
    (context : HeuristicContext) (h : ResolutionHeuristic)
    (r : HeuristicResult) :
  apply h context = Some r →
  let n := length (matches r) in
  let c := confidence r in
  (h = functionSignatureHeuristic →
     1 ≤ n ∧ (n = 1 → c = 99%Z) ∧ (n = 2 → c = 50%Z) ∧ (3 ≤ n → c = 30%Z))
  ∧ (h = interfaceNameHeuristic →
     1 ≤ n ∧ (n = 1 → c = 90%Z) ∧ (n = 2 → c = 60%Z) ∧ (3 ≤ n → c = 40%Z))
  ∧ (h = variableChainHeuristic → n = 1 ∧ c = 100%Z).
Proof.
  intros Happ n c. subst n c. repeat apply conj; intros ->; simpl in Happ.
  all: try (apply FunctionSignature_apply_inv in Happ as [Hn ->];
            pose proof (step_table_cases 99 50 30 _ Hn) as T; simpl in T;
            unfold FunctionSignatureHeuristic.calculateConfidence; tauto).
  all: try (apply InterfaceName_apply_inv in Happ as [Hn ->];
            pose proof (step_table_cases 90 60 40 _ Hn) as T; simpl in T;
            unfold InterfaceNameHeuristic.calculateConfidence; tauto).
  all: apply VariableChain_apply_inv in Happ; tauto.
Qed.

Lemma confidence_is_step_of_match_count_witness :
  ∃ r, apply interfaceNameHeuristic Sample.twoVaults = Some r
       ∧ confidence r = 60%Z.
Proof.
  assert (Happ : apply interfaceNameHeuristic Sample.twoVaults
                 = Some {| matches :=
                             map entry_match
                               [Sample.vault "eth:0x01"; Sample.vault "eth:0x02"];
                           confidence := 60 |})
    by (vm_compute; reflexivity).
  eexists. split; [exact Happ |].
  destruct (confidence_is_step_of_match_count _ _ _ Happ) as (_ & Hin & _).
  apply Hin; reflexivity.
Defined.

(* ======================================================================= *)
(** ** Facts: the engine *)
(* ======================================================================= *)

Section Sorting.

Context {A : Type} (key : A → Z).

(** Sorted with the comparator of the engine (larger keys first), the array
    starts with its first element of largest key. *)
Lemma sort_desc_head (l : list A) :
  l ≠ [] →
  ∃ w rest before after,
    sort (fun a b => (key b - key a)%Z) l = w :: rest
    ∧ l = before ++ w :: after
    ∧ Forall (fun x => (key x < key w)%Z) before
    ∧ Forall (fun x => (key x ≤ key w)%Z) after.
Proof.
  induction l as [| x l IH]; [congruence | intros _].
  destruct l as [| y l'].
  - exists x, [], [], []. simpl. auto.
  - destruct IH as (w & rest & before & after & Hs & Hl & Hb & Ha);
      [congruence |].
    cbn [sort] in Hs |- *. rewrite Hs. cbn [sort_insert].
    destruct (Z.leb_spec (key w - key x) 0) as [Hle | Hgt].
    + exists x, (w :: rest), [], (y :: l'). repeat split; auto.
      rewrite Hl. apply Forall_app. split.
      * eapply Forall_impl; [exact Hb |]. simpl. intros; lia.
      * constructor; [lia |].
        eapply Forall_impl; [exact Ha |]. simpl. intros; lia.
    + exists w, (sort_insert (fun a b => (key b - key a)%Z) x rest),
        (x :: before), after.
      repeat split; auto.
      * rewrite Hl. reflexivity.
      * constructor; [lia | exact Hb].
Qed.

End Sorting.

Section Engine.

Variable context : HeuristicContext.
Variable onProgress : bool.

(** The synchronous loop collects the results in registration order. *)
Lemma for_of_resolve_value hs : ∀ acc,
  value (for_of hs (resolve_step context onProgress) acc)
  = acc ++ collect context hs.
Proof.
  induction hs as [| h hs IH]; intros acc; simpl.
  - rewrite app_nil_r. reflexivity.
  - unfold mbind, sync_bind at 1. simpl. rewrite IH.
    unfold resolve_step, collect. simpl.
    destruct (apply h context) as [r |]; simpl.
    + rewrite <- app_assoc. reflexivity.
    + reflexivity.
Qed.

Lemma collect_split hs : ∀ before w after,
  collect context hs = before ++ w :: after →
  ∃ hb ha,
    hs = hb ++ heuristic w :: ha
    ∧ apply (heuristic w) context = Some (result w)
    ∧ collect context hb = before
    ∧ collect context ha = after.
Proof.
  induction hs as [| h hs IH]; intros before w after Hc.
  - destruct before; discriminate.
  - unfold collect in Hc. simpl in Hc.
    destruct (apply h context) as [r |] eqn:Happ.
    + destruct before as [| b before]; simpl in Hc.
      * injection Hc as <- Hc. exists [], hs. simpl. auto.
      * injection Hc as <- Hc. apply IH in Hc as (hb & ha & -> & Hw & Hb & Ha).
        exists (h :: hb), ha. repeat split; auto.
        unfold collect. simpl. rewrite Happ. f_equal. exact Hb.
    + apply IH in Hc as (hb & ha & -> & Hw & Hb & Ha).
      exists (h :: hb), ha. repeat split; auto.
      unfold collect. simpl. rewrite Happ. exact Hb.
Qed.

Lemma collect_In hs h r :
  In h hs → apply h context = Some r →
  In {| heuristic := h; result := r |} (collect context hs).
Proof.
  induction hs as [| h' hs IH]; simpl; [tauto |].
  intros [-> | Hin] Happ; unfold collect; simpl.
  - rewrite Happ. left. reflexivity.
  - destruct (apply h' context); [right |]; apply IH; auto.
Qed.

Lemma collect_nil hs :
  (∀ h, In h hs → apply h context = None) → collect context hs = [].
Proof.
  induction hs as [| h hs IH]; intros Hnone; [reflexivity |].
  unfold collect. simpl. rewrite (Hnone h) by (left; reflexivity).
  apply IH. intros h' Hin. apply Hnone. right. exact Hin.
Qed.

Lemma collect_result hs c :
  In c (collect context hs) →
  In (heuristic c) hs ∧ apply (heuristic c) context = Some (result c).
Proof.
  induction hs as [| h hs IH]; simpl; [tauto |].
  unfold collect. simpl. destruct (apply h context) as [r |] eqn:Happ.
  - intros [<- | Hin]; simpl; [auto |]. apply IH in Hin. tauto.
  - intros Hin. apply IH in Hin. tauto.
Qed.

(** What [resolve] returns, in terms of the collected results. *)
Lemma resolve_value engine :
  value (resolve engine context onProgress)
  = match sort by_confidence_desc (collect context (heuristics engine)) with
    | winner :: _ => Some (decision_of winner)
    | [] => None
    end.
Proof.
  unfold resolve. unfold mbind, sync_bind. simpl.
  rewrite for_of_resolve_value. simpl.
  destruct (collect context (heuristics engine)) as [| c cs] eqn:Hc.
  - reflexivity.
  - simpl length. simpl Nat.eqb. cbv iota.
    destruct (sort by_confidence_desc (c :: cs)); reflexivity.
Qed.

End Engine.

Section EngineTrace.

Variable context : HeuristicContext.
Variable onProgress : bool.

Lemma for_of_resolve_trace hs : ∀ acc,
  trace (for_of hs (resolve_step context onProgress) acc)
  = if onProgress then map (heuristic_line context) hs else [].
Proof.
  induction hs as [| h hs IH]; intros acc; simpl.
  - destruct onProgress; reflexivity.
  - unfold mbind, sync_bind at 1. simpl. rewrite IH.
    unfold resolve_step, heuristic_line.
    destruct (apply h context) as [r |]; destruct onProgress; reflexivity.
Qed.

Lemma sort_nil_inv {A : Type} (cmp : A → A → Z) (l : list A) :
  sort cmp l = [] → l = [].
Proof.
  destruct l as [| x l]; [reflexivity |]. simpl.
  destruct (sort cmp l) as [| y s]; simpl; [discriminate |].
  destruct (cmp x y <=? 0)%Z; discriminate.
Qed.

Lemma resolve_trace engine :
  trace (resolve engine context onProgress)
  = if onProgress then expected_trace context (heuristics engine) else [].
Proof.
  unfold resolve, expected_trace, closing_line.
  unfold mbind, sync_bind. simpl.
  rewrite for_of_resolve_trace, for_of_resolve_value. simpl.
  destruct (collect context (heuristics engine)) as [| c cs] eqn:Hc.
  - destruct onProgress; reflexivity.
  - simpl length. simpl Nat.eqb. cbv iota.
    destruct (sort by_confidence_desc (c :: cs)) as [| w ws] eqn:Hs.
    + apply sort_nil_inv in Hs. discriminate.
    + destruct onProgress; reflexivity.
Qed.

(** Resuming to the end commutes with sequencing. *)
Lemma settle_bind {A B : Type} (m : AsyncM A) (k : A → AsyncM B) :
  settle (m ≫= k) = settle m ≫= (fun a => settle (k a)).
Proof.
  unfold mbind, async_mbind, sync_bind.
  induction m as [a | msg m IH]; simpl.
  - destruct (settle (k a)). reflexivity.
  - rewrite IH. simpl. destruct msg; reflexivity.
Qed.

Lemma settle_emit_await msg :
  settle (emit_await onProgress msg) = emit onProgress msg.
Proof. unfold emit_await, emit. destruct onProgress; reflexivity. Qed.

Lemma settle_step results h :
  settle (resolveAsync_step context onProgress results h)
  = resolve_step context onProgress results h.
Proof.
  unfold resolveAsync_step, resolve_step.
  destruct (apply h context) as [r |];
    rewrite settle_bind, settle_emit_await; reflexivity.
Qed.

Lemma settle_for_of hs : ∀ acc,
  settle (for_of hs (resolveAsync_step context onProgress) acc)
  = for_of hs (resolve_step context onProgress) acc.
Proof.
  induction hs as [| h hs IH]; intros acc; simpl; [reflexivity |].
  rewrite settle_bind, settle_step.
  unfold mbind, sync_bind. rewrite IH. reflexivity.
Qed.

Lemma sync_bind_ext {A B : Type} (m : SyncM A) (k k' : A → SyncM B) :
  (∀ a, k a = k' a) → m ≫= k = m ≫= k'.
Proof. intros Hk. unfold mbind, sync_bind. rewrite Hk. reflexivity. Qed.

(** The two bodies differ only in how a message is handed over. *)
Lemma settle_resolveAsync engine :
  settle (resolveAsync engine context onProgress)
  = resolve engine context onProgress.
Proof.
  unfold resolveAsync, resolve.
  rewrite settle_bind, settle_emit_await.
  apply sync_bind_ext. intros _.
  rewrite settle_bind, settle_for_of.
  apply sync_bind_ext. intros results.
  destruct (Nat.eqb (length results) 0).
  - rewrite settle_bind, settle_emit_await. reflexivity.
  - destruct (sort by_confidence_desc results); [reflexivity |].
    rewrite settle_bind, settle_emit_await. reflexivity.
Qed.

End EngineTrace.

Lemma register_appends h engine :
  heuristics (register h engine) = heuristics engine ++ [h].
Proof. reflexivity. Qed.

Lemma default_heuristics_return_matches :
  Forall returns_matches (heuristics createHeuristicEngine).
Proof.
  repeat constructor; intros context r Happ Hnil; simpl in Happ.
  - apply VariableChain_apply_inv in Happ as [Hn _]. rewrite Hnil in Hn.
    discriminate.
  - apply InterfaceName_apply_inv in Happ as [Hn _]. rewrite Hnil in Hn.
    simpl in Hn. lia.
  - apply FunctionSignature_apply_inv in Happ as [Hn _]. rewrite Hnil in Hn.
    simpl in Hn. lia.
Qed.

(** C1. When the results collected by [resolve] are not empty, the decision
    is built from a registered heuristic [h] and its result [r] such that
    every heuristic registered before [h] that returned a result has a
    strictly smaller confidence, and every heuristic registered after [h]
    that returned a result has a confidence at most that of [r]: the highest
    confidence wins, and among equals the earliest registered. *)
Theorem resolve_selects_first_best
    (engine : HeuristicEngine) (context : HeuristicContext)
    (onProgress : bool) :
  collect context (heuristics engine) ≠ [] →
  ∃ hb h ha r,
    heuristics engine = hb ++ h :: ha
    ∧ apply h context = Some r
    ∧ value (resolve engine context onProgress)
      = Some {| heuristicName := h_name h;
                d_matches :=
                  map (fun m => {| c_address := m_address m;
                                   c_contractName := m_contractName m |})
                    (matches r);
                d_confidence := confidence r |}
    ∧ (∀ h' r', In h' hb → apply h' context = Some r' →
         (confidence r' < confidence r)%Z)
    ∧ (∀ h' r', In h' ha → apply h' context = Some r' →
         (confidence r' ≤ confidence r)%Z).
Proof.
  intros Hne.
  destruct (sort_desc_head (fun c => confidence (result c)) _ Hne)
    as (w & rest & before & after & Hs & Hl & Hb & Ha).
  destruct (collect_split context _ _ _ _ Hl) as (hb & ha & Hhs & Hw & <- & <-).
  exists hb, (heuristic w), ha, (result w). split; [exact Hhs |].
  split; [exact Hw |]. split; [| split].
  - rewrite resolve_value.
    change (sort by_confidence_desc) with
      (sort (fun a b : Collected =>
               (confidence (result b) - confidence (result a))%Z)).
    rewrite Hs. reflexivity.
  - intros h' r' Hin Happ.
    pose proof (collect_In context hb h' r' Hin Happ) as Hc.
    rewrite List.Forall_forall in Hb. apply (Hb _ Hc).
  - intros h' r' Hin Happ.
    pose proof (collect_In context ha h' r' Hin Happ) as Hc.
    rewrite List.Forall_forall in Ha. apply (Ha _ Hc).
Qed.

Lemma resolve_selects_first_best_witness :
  collect Sample.cachedCall (heuristics Sample.tiedEngine) ≠ []
  ∧ ∃ d, value (resolve Sample.tiedEngine Sample.cachedCall true) = Some d.
Proof.
  assert (H : collect Sample.cachedCall (heuristics Sample.tiedEngine) ≠ [])
    by (vm_compute; discriminate).
  split; [exact H |].
  destruct (resolve_selects_first_best Sample.tiedEngine Sample.cachedCall
              true H) as (hb & h & ha & r & _ & _ & Hv & _).
  eexists. exact Hv.
Defined.

(** Two heuristics of equal confidence: the one registered first wins. *)
Example resolve_tie_break :
  heuristicName <$> value (resolve Sample.tiedEngine Sample.cachedCall false)
  = Some "early".
Proof. vm_compute. reflexivity. Qed.

Lemma suspensions_bind {A B : Type} (m : AsyncM A) (k : A → AsyncM B) :
  suspensions (m ≫= k) = suspensions m + suspensions (k (value (settle m))).
Proof.
  unfold mbind, async_mbind.
  induction m as [a | msg m IH]; simpl; [reflexivity |].
  rewrite IH. reflexivity.
Qed.

Lemma suspensions_for_of context onProgress hs : ∀ acc,
  suspensions (for_of hs (resolveAsync_step context onProgress) acc)
  = length hs.
Proof.
  induction hs as [| h hs IH]; intros acc; simpl; [reflexivity |].
  rewrite suspensions_bind, IH. unfold resolveAsync_step.
  destruct (apply h context); reflexivity.
Qed.

Lemma suspensions_resolveAsync engine context onProgress :
  suspensions (resolveAsync engine context onProgress)
  = length (expected_trace context (heuristics engine)).
Proof.
  unfold resolveAsync, expected_trace.
  rewrite suspensions_bind, suspensions_bind, suspensions_for_of.
  simpl length. rewrite length_app, length_map. simpl.
  destruct (Nat.eqb _ 0) eqn:E; [simpl; lia |].
  destruct (sort _ _) eqn:Hs; [| simpl; lia].
  apply sort_nil_inv in Hs. rewrite Hs in E. discriminate.
Qed.

(** C3. For every engine and context, with or without a callback, resuming
    [resolveAsync] to its end gives the decision of [resolve] and delivers
    the messages of [resolve], in the same order. With a callback these are
    the opening line, one line for each registered heuristic in registration
    order (a match line exactly when the heuristic returned a result), and
    the closing line; the asynchronous body is suspended once for each. *)
Theorem resolveAsync_agrees_with_resolve
    (engine : HeuristicEngine) (context : HeuristicContext)
    (onProgress : bool) :
  value (settle (resolveAsync engine context onProgress))
  = value (resolve engine context onProgress)
  ∧ trace (settle (resolveAsync engine context onProgress))
    = trace (resolve engine context onProgress)
  ∧ trace (resolve engine context onProgress)
    = (if onProgress then expected_trace context (heuristics engine) else [])
  ∧ suspensions (resolveAsync engine context onProgress)
    = length (expected_trace context (heuristics engine)).
Proof.
  rewrite settle_resolveAsync. repeat split.
  - apply resolve_trace.
  - apply suspensions_resolveAsync.
Qed.

(** C5. When no registered heuristic returns a result, [resolve] and
    [resolveAsync] return no decision. When some registered heuristic returns
    a result, both return a decision, and its match list is not empty as long
    as the registered heuristics keep to the invariant that a result has at
    least one match, which the three heuristics of the default engine do. *)
Theorem resolve_absent_or_nonempty
    (engine : HeuristicEngine) (context : HeuristicContext)
    (onProgress : bool) :
  ((∀ h, In h (heuristics engine) → apply h context = None) →
     value (resolve engine context onProgress) = None
     ∧ value (settle (resolveAsync engine context onProgress)) = None)
  ∧ ((∃ h r, In h (heuristics engine) ∧ apply h context = Some r) →
     ∃ d, value (resolve engine context onProgress) = Some d
          ∧ value (settle (resolveAsync engine context onProgress)) = Some d
          ∧ (Forall returns_matches (heuristics engine) → d_matches d ≠ []))
  ∧ Forall returns_matches (heuristics createHeuristicEngine).
Proof.
  rewrite settle_resolveAsync, resolve_value. split; [| split].
  - intros Hnone. rewrite (collect_nil context _ Hnone). auto.
  - intros (h & r & Hin & Happ).
    pose proof (collect_In context _ h r Hin Happ) as Hc.
    destruct (sort_desc_head (fun c => confidence (result c))
                (collect context (heuristics engine)))
      as (w & rest & before & after & Hs & Hl & _ & _).
    { intros E. rewrite E in Hc. destruct Hc. }
    change (sort by_confidence_desc) with
      (sort (fun a b : Collected =>
               (confidence (result b) - confidence (result a))%Z)).
    rewrite Hs. eexists. split; [reflexivity |]. split; [reflexivity |].
    intros Hinv. simpl.
    assert (Hw : In w (collect context (heuristics engine))).
    { rewrite Hl. apply in_or_app. right. left. reflexivity. }
    apply collect_result in Hw as [Hwin Hwapp].
    rewrite List.Forall_forall in Hinv.
    pose proof (Hinv _ Hwin context _ Hwapp) as Hm.
    destruct (matches (result w)); [congruence | discriminate].
  - exact default_heuristics_return_matches.
Qed.

Lemma resolve_absent_or_nonempty_witness :
  value (resolve createHeuristicEngine Sample.unknownCall true) = None
  ∧ ∃ d, value (resolve createHeuristicEngine Sample.cachedCall true) = Some d
         ∧ d_matches d ≠ [].
Proof.
  split.
  - destruct (resolve_absent_or_nonempty createHeuristicEngine
                Sample.unknownCall true) as (Hnone & _ & _).
    apply Hnone.
    intros h [<- | [<- | [<- | []]]]; vm_compute; reflexivity.
  - destruct (resolve_absent_or_nonempty createHeuristicEngine
                Sample.cachedCall true) as (_ & Hsome & Hinv).
    destruct Hsome as (d & Hd & _ & Hm).
    + exists variableChainHeuristic. eexists.
      split; [left; reflexivity | vm_compute; reflexivity].
    + exists d. split; [exact Hd | exact (Hm Hinv)].
Defined.

(* ======================================================================= *)
(** ** Facts: strings *)
(* ======================================================================= *)

Lemma startsWith_I (s : string) :
  Js.startsWith s "I" = true ↔ ∃ rest, s = String "I"%char rest.
Proof.
  destruct s as [| c s]; simpl.
  - split; [discriminate | intros [? ?]; discriminate].
  - destruct (Ascii.eqb_spec c "I"%char) as [-> | Hne]; simpl.
    + split; eauto.
    + split; [discriminate | intros [rest [= -> _]]; congruence].
Qed.

Lemma toLowerCase_empty (s : string) :
  Js.toLowerCase s = EmptyString ↔ s = EmptyString.
Proof. destruct s; simpl; split; congruence. Qed.

(* ======================================================================= *)
(** ** Facts: the variable-chain heuristic *)
(* ======================================================================= *)

Lemma find_none_all {A : Type} (P : A → bool) (l : list A) :
  (∀ x, In x l → P x = false) → find P l = None.
Proof.
  induction l as [| x l IH]; intros H; simpl; [reflexivity |].
  rewrite (H x) by (left; reflexivity). apply IH.
  intros y Hy. apply H. right. exact Hy.
Qed.

Lemma find_first {A : Type} (P : A → bool) (before : list A) x after :
  (∀ y, In y before → P y = false) → P x = true →
  find P (before ++ x :: after) = Some x.
Proof.
  induction before as [| b before IH]; intros Hb Hx; simpl.
  - rewrite Hx. reflexivity.
  - rewrite (Hb b) by (left; reflexivity). apply IH; [| exact Hx].
    intros y Hy. apply Hb. right. exact Hy.
Qed.

(** C6. When the walk ends on a name other than the call's storage variable,
    the caller contract is found in the graph, and the value it records under
    the resolved name is a string that starts with [eth:], the heuristic
    returns one match that carries that string as its address, with
    confidence 100. The match has no contract name when no entry of the graph
    has that address (compared in lower case), and otherwise the name of the
    first entry that has it. *)
Theorem variable_chain_returns_recorded_address
    (context : HeuristicContext) (contract : DiscoveredEntry)
    (values : gmap string ContractValue) (value : string) :
  let resolvedVar :=
    VariableChain.resolveVariableChain (storageVariable (call context))
      (variableAssignments context) in
  let graph := entries (discovered context) in
  resolvedVar ≠ storageVariable (call context) →
  find (VariableChainHeuristic.is_caller (callerContractAddress context)) graph
  = Some contract →
  e_values contract = Some values →
  values !! resolvedVar = Some (VString value) →
  Js.startsWith value "eth:" = true →
  ∃ contractName,
    VariableChainHeuristic.apply context
    = Some {| matches := [{| m_address := value;
                             m_contractName := contractName |}];
              confidence := 100 |}
    ∧ ((∀ e, In e graph →
          Js.toLowerCase (e_address e) ≠ Js.toLowerCase value) →
       contractName = None)
    ∧ (∀ before e after,
         graph = before ++ e :: after →
         Js.toLowerCase (e_address e) = Js.toLowerCase value →
         (∀ e', In e' before →
            Js.toLowerCase (e_address e') ≠ Js.toLowerCase value) →
         contractName = e_name e).
Proof.
  intros resolvedVar graph Hprog Hfind Hvals Hval Hfmt.
  unfold VariableChainHeuristic.apply.
  fold resolvedVar. fold graph.
  apply String.eqb_neq in Hprog. rewrite Hprog, Hfind, Hvals, Hval, Hfmt.
  eexists. split; [reflexivity |]. split.
  - intros Hno. rewrite find_none_all; [reflexivity |].
    intros e He. unfold VariableChainHeuristic.has_address.
    apply String.eqb_neq. apply Hno. exact He.
  - intros before e after Hg He Hb. rewrite Hg.
    rewrite (find_first _ before e after); [reflexivity | |].
    + intros y Hy. unfold VariableChainHeuristic.has_address.
      apply String.eqb_neq. apply Hb. exact Hy.
    + unfold VariableChainHeuristic.has_address. apply String.eqb_eq. exact He.
Qed.

Lemma variable_chain_returns_recorded_address_witness :
  ∃ contractName,
    VariableChainHeuristic.apply Sample.cachedCall
    = Some {| matches := [{| m_address := "eth:0xabcd";
                             m_contractName := contractName |}];
              confidence := 100 |}.
Proof.
  destruct (variable_chain_returns_recorded_address Sample.cachedCall
              Sample.borrowerOperations
              {[ "troveManager" := VString "eth:0xabcd" ]} "eth:0xabcd")
    as (contractName & Happ & _).
  - vm_compute. discriminate.
  - vm_compute. reflexivity.
  - reflexivity.
  - vm_compute. reflexivity.
  - vm_compute. reflexivity.
  - exists contractName. exact Happ.
Defined.

(* ======================================================================= *)
(** ** Facts: the interface-name heuristic *)
(* ======================================================================= *)

(** C7. When the interface type is the one-character string [I] or does not
    start with [I], the interface-name heuristic returns no result. In every
    other case its matches are the entries of the graph, in graph order, that
    have type [Contract] and a name equal, after lower-casing both, to the
    interface type without its first character; it returns no result exactly
    when there is no such entry. *)
Theorem interface_name_candidates (context : HeuristicContext) :
  let interfaceName := interfaceType (call context) in
  let graph := entries (discovered context) in
  ((interfaceName = "I" ∨ Js.startsWith interfaceName "I" = false) →
     InterfaceNameHeuristic.apply context = None)
  ∧ (¬ (interfaceName = "I" ∨ Js.startsWith interfaceName "I" = false) →
     ∃ keep : DiscoveredEntry → bool,
       (∀ e, keep e = true ↔
             e_type e = "Contract"
             ∧ ∃ n, e_name e = Some n
                    ∧ Js.toLowerCase n
                      = Js.toLowerCase (Js.slice_from 1 interfaceName))
       ∧ matches_of (InterfaceNameHeuristic.apply context)
         = map entry_match (List.filter keep graph)
       ∧ (InterfaceNameHeuristic.apply context = None
          ↔ List.filter keep graph = [])).
Proof.
  intros interfaceName graph. unfold InterfaceNameHeuristic.apply.
  fold interfaceName. fold graph. split.
  - intros [-> | Hno]; [reflexivity | rewrite Hno; reflexivity].
  - intros Hyes.
    destruct (Js.startsWith interfaceName "I") eqn:Hstart; [| tauto].
    apply startsWith_I in Hstart as [rest Hrest].
    assert (Hne : rest ≠ EmptyString) by (intros ->; tauto).
    rewrite Hrest. destruct rest as [| c rest]; [congruence |].
    simpl negb. simpl Nat.leb. cbv iota. simpl Js.slice_from.
    set (expected := String c rest).
    set (keep := fun e =>
      (String.eqb (e_type e) "Contract"
       && String.eqb (Js.toLowerCase (Js.or_else (e_name e) ""))
            (Js.toLowerCase expected))%bool).
    assert (Hfold : ∀ acc,
      fold_left (InterfaceNameHeuristic.visit expected) graph acc
      = acc ++ map entry_match (List.filter keep graph)).
    { apply fold_visit_filter. intros ms e.
      unfold InterfaceNameHeuristic.visit, keep.
      destruct (String.eqb (e_type e) "Contract"); simpl; [| reflexivity].
      reflexivity. }
    exists keep. split; [| split].
    + intros e. unfold keep. rewrite andb_true_iff, !String.eqb_eq.
      split; intros [Ht Hn]; (split; [exact Ht |]).
      * destruct (e_name e) as [n |]; simpl in Hn.
        -- destruct n; simpl in Hn; [discriminate |]. eauto.
        -- discriminate.
      * destruct Hn as (n & -> & Hn). simpl.
        destruct n; simpl; [discriminate | exact Hn].
    + rewrite Hfold. simpl app.
      destruct (List.filter keep graph); reflexivity.
    + rewrite Hfold. simpl app.
      destruct (List.filter keep graph); simpl; split; congruence.
Qed.

Lemma interface_name_candidates_witness :
  InterfaceNameHeuristic.apply Sample.unknownCall = None
  ∧ ∃ keep,
      matches_of (InterfaceNameHeuristic.apply Sample.twoVaults)
      = map entry_match
          (List.filter keep (entries (discovered Sample.twoVaults))).
Proof.
  split.
  - apply (interface_name_candidates Sample.unknownCall).
    right. reflexivity.
  - destruct (interface_name_candidates Sample.twoVaults) as [_ H].
    destruct H as (keep & _ & Hm & _).
    + intros [H | H]; discriminate.
    + exists keep. exact Hm.
Defined.

(* ======================================================================= *)
(** ** Facts: letter casing in the variable-chain heuristic *)
(* ======================================================================= *)

Lemma find_related {A : Type} (R : A → A → Prop) (P P' : A → bool) l l' :
  Forall2 R l l' → (∀ x y, R x y → P x = P' y) →
  match find P l, find P' l' with
  | Some x, Some y => R x y
  | None, None => True
  | _, _ => False
  end.
Proof.
  intros HF HP. induction HF as [| x y l l' Hxy _ IH]; simpl; [exact I |].
  rewrite <- (HP x y Hxy). destruct (P x); [exact Hxy | exact IH].
Qed.

Lemma Forall2_both {A : Type} (R S : A → A → Prop) l l' :
  Forall2 R l l' → Forall2 S l l' → Forall2 (fun x y => R x y ∧ S x y) l l'.
Proof.
  intros HR. induction HR as [| x y l l' Hxy _ IH]; intros HS;
    inversion HS; subst; constructor; auto.
Qed.

Lemma is_caller_recased a a' e e' :
  same_letters a a' → recased_entry e e' →
  VariableChainHeuristic.is_caller a e = VariableChainHeuristic.is_caller a' e'.
Proof.
  intros Ha (He & _ & Ht & _). unfold VariableChainHeuristic.is_caller.
  unfold same_letters in *. rewrite Ha, He, Ht. reflexivity.
Qed.

Lemma has_address_recased v v' e e' :
  same_letters v v' → recased_entry e e' →
  VariableChainHeuristic.has_address v e
  = VariableChainHeuristic.has_address v' e'.
Proof.
  intros Hv (He & _). unfold VariableChainHeuristic.has_address.
  unfold same_letters in *. rewrite Hv, He. reflexivity.
Qed.

(** C10, as amended. The variable-chain heuristic compares addresses in lower
    case when it looks for the caller contract and when it looks for the
    entry of the recorded value. So two contexts that differ only in the
    casing of the caller address, of entry addresses and of recorded string
    values resolve alike (both without result, or one match each with the
    same contract name, confidence 100 and the recorded value as address,
    equal up to casing), provided the recasing leaves alone whether a
    recorded string starts with the lower-case marker [eth:], which is
    tested as written. *)
Theorem variable_chain_casing (c c' : HeuristicContext) :
  recased_context c c' → markers_kept c c' →
  same_resolution (VariableChainHeuristic.apply c)
    (VariableChainHeuristic.apply c').
Proof.
  intros (Hcall & Hasg & Hcaller & Hent) Hmk.
  unfold VariableChainHeuristic.apply. rewrite <- Hcall, <- Hasg.
  destruct (String.eqb _ _); [exact I |].
  pose proof (find_related _
    (VariableChainHeuristic.is_caller (callerContractAddress c))
    (VariableChainHeuristic.is_caller (callerContractAddress c'))
    _ _ (Forall2_both _ _ _ _ Hent Hmk)) as Hfind.
  destruct (find _ (entries (discovered c))) as [contract |];
    destruct (find _ (entries (discovered c'))) as [contract' |];
    try (exfalso; apply Hfind; intros x y [Hxy _];
         apply is_caller_recased; assumption);
    [| exact I].
  destruct Hfind as [(_ & _ & _ & Hvals) Hkept].
  { intros x y [Hxy _]. apply is_caller_recased; assumption. }
  unfold recased_values in Hvals.
  destruct (e_values contract) as [m |], (e_values contract') as [m' |];
    try contradiction; [| exact I].
  set (k := VariableChain.resolveVariableChain _ _) in *.
  specialize (Hvals k). specialize (Hkept m m' k).
  destruct (m !! k) as [v |], (m' !! k) as [v' |];
    try contradiction; [| exact I].
  specialize (Hkept v v' eq_refl eq_refl eq_refl eq_refl).
  destruct v as [s | | |], v' as [s' | | |]; unfold recased_value in Hvals;
    try discriminate; try exact I.
  unfold marker_kept in Hkept. rewrite <- Hkept.
  destruct (Js.startsWith s "eth:"); [| exact I].
  simpl. split; [reflexivity |]. constructor; [| constructor]. simpl.
  split; [exact Hvals |].
  pose proof (find_related _ (VariableChainHeuristic.has_address s)
    (VariableChainHeuristic.has_address s') _ _ Hent) as Hres.
  destruct (find _ (entries (discovered c))) as [e |];
    destruct (find _ (entries (discovered c'))) as [e' |];
    try (exfalso; apply Hres; intros x y Hxy;
         apply has_address_recased; assumption);
    [| reflexivity].
  destruct Hres as (_ & Hname & _); [| exact Hname].
  intros x y Hxy. apply has_address_recased; assumption.
Qed.

Lemma sample_recased_values (s s' : string) :
  same_letters s s' →
  recased_values (Some {[ "troveManager" := VString s ]})
    (Some {[ "troveManager" := VString s' ]}).
Proof.
  intros Hs k. destruct (decide (k = "troveManager")) as [-> | Hne].
  - rewrite !lookup_singleton_eq. exact Hs.
  - rewrite !lookup_singleton_ne by congruence. exact I.
Qed.

Lemma variable_chain_casing_witness :
  recased_context Sample.cachedCall Sample.cachedCallRecased
  ∧ markers_kept Sample.cachedCall Sample.cachedCallRecased
  ∧ same_resolution (VariableChainHeuristic.apply Sample.cachedCall)
      (VariableChainHeuristic.apply Sample.cachedCallRecased).
Proof.
  assert (Hrec : recased_context Sample.cachedCall Sample.cachedCallRecased).
  { repeat split; try reflexivity.
    repeat constructor; try reflexivity.
    apply sample_recased_values. reflexivity. }
  assert (Hmk : markers_kept Sample.cachedCall Sample.cachedCallRecased).
  { repeat constructor.
    - intros m m' k v v' [= <-] [= <-] Hv Hv'.
      destruct (decide (k = "troveManager")) as [-> | Hne].
      + rewrite lookup_singleton_eq in Hv, Hv'.
        injection Hv as <-. injection Hv' as <-. reflexivity.
      + rewrite lookup_singleton_ne in Hv by congruence. discriminate.
    - intros m m' k v v' Hm. discriminate. }
  split; [exact Hrec |]. split; [exact Hmk |].
  exact (variable_chain_casing _ _ Hrec Hmk).
Defined.

(** C10, as stated, fails: writing the chain marker of the recorded address
    in upper case changes nothing but the casing of an address string of the
    graph, and the heuristic, which returned a match, no longer returns
    one. *)
Lemma variable_chain_casing_counterexample :
  recased_context Sample.cachedCall Sample.cachedCallUpper
  ∧ VariableChainHeuristic.apply Sample.cachedCall
    = Some {| matches := [{| m_address := "eth:0xabcd";
                             m_contractName := Some "TroveManager" |}];
              confidence := 100 |}
  ∧ VariableChainHeuristic.apply Sample.cachedCallUpper = None
  ∧ ¬ (∀ c c', recased_context c c' →
         same_resolution (VariableChainHeuristic.apply c)
           (VariableChainHeuristic.apply c')).
Proof.
  assert (Hrec : recased_context Sample.cachedCall Sample.cachedCallUpper).
  { repeat split; try reflexivity.
    repeat constructor; try reflexivity.
    apply sample_recased_values. reflexivity. }
  assert (H1 : VariableChainHeuristic.apply Sample.cachedCall
               = Some {| matches := [{| m_address := "eth:0xabcd";
                                        m_contractName := Some "TroveManager" |}];
                         confidence := 100 |})
    by (vm_compute; reflexivity).
  assert (H2 : VariableChainHeuristic.apply Sample.cachedCallUpper = None)
    by (vm_compute; reflexivity).
  split; [exact Hrec |]. split; [exact H1 |]. split; [exact H2 |].
  intros H. specialize (H _ _ Hrec). rewrite H1, H2 in H. exact H.
Qed.

(* ======================================================================= *)
(** ** Facts: the patterns *)
(* ======================================================================= *)

Section Strings.

Lemma append_assoc (a b c : string) : (a +:+ b) +:+ c = a +:+ b +:+ c.
Proof. induction a as [| x a IH]; simpl; [reflexivity | rewrite IH; reflexivity]. Qed.

Lemma append_empty_r (a : string) : a +:+ EmptyString = a.
Proof. induction a as [| x a IH]; simpl; [reflexivity | rewrite IH; reflexivity]. Qed.

Lemma startsWith_append (l s : string) : Js.startsWith (l +:+ s) l = true.
Proof.
  induction l as [| x l IH]; simpl; [reflexivity |].
  rewrite Ascii.eqb_refl, IH. reflexivity.
Qed.

Lemma slice_from_append (l s : string) :
  Js.slice_from (String.length l) (l +:+ s) = s.
Proof. induction l as [| x l IH]; simpl; [reflexivity | exact IH]. Qed.

Lemma startsWith_split (s l : string) :
  Js.startsWith s l = true → s = l +:+ Js.slice_from (String.length l) s.
Proof.
  revert s. induction l as [| x l IH]; intros s; simpl; [reflexivity |].
  destruct s as [| y s]; [discriminate |].
  destruct (Ascii.eqb_spec y x) as [-> | _]; [| discriminate]. simpl.
  intros H. rewrite <- (IH s H). reflexivity.
Qed.

Lemma all_in_append p (a b : string) :
  all_in p (a +:+ b) = (all_in p a && all_in p b)%bool.
Proof.
  induction a as [| x a IH]; simpl; [reflexivity |].
  rewrite IH, andb_assoc. reflexivity.
Qed.

End Strings.

Section Greedy.

Context {R : Type} (p : ascii → bool) (k : string → string → option R).

(** Whatever the repetition returns comes from a run of the class, long
    enough, followed by text on which the rest of the pattern succeeds. *)
Lemma greedy_sound s : ∀ min acc r,
  Regex.greedy p min acc s k = Some r →
  ∃ run rest,
    s = run +:+ rest ∧ all_in p run = true ∧ min ≤ String.length run
    ∧ k (acc +:+ run) rest = Some r.
Proof.
  induction s as [| x s IH]; intros min acc r; simpl.
  - destruct (Nat.eqb_spec min 0) as [-> | _]; [| discriminate].
    intros Hk. exists EmptyString, EmptyString.
    simpl. rewrite append_empty_r. auto.
  - assert (Hstop : (if Nat.eqb min 0 then k acc (String x s) else None)
                    = Some r →
              ∃ run rest, String x s = run +:+ rest ∧ all_in p run = true
                ∧ min ≤ String.length run ∧ k (acc +:+ run) rest = Some r).
    { destruct (Nat.eqb_spec min 0) as [-> | _]; [| discriminate].
      intros Hk. exists EmptyString, (String x s).
      simpl. rewrite append_empty_r. auto. }
    destruct (p x) eqn:Hpx; [| exact Hstop].
    destruct (Regex.greedy p (pred min) (acc +:+ String x EmptyString) s k)
      as [r' |] eqn:Hrec; [| exact Hstop].
    intros [= <-]. apply IH in Hrec as (run & rest & -> & Hall & Hmin & Hk).
    exists (String x run), rest. simpl. rewrite Hpx, Hall.
    rewrite append_assoc in Hk. simpl in Hk. repeat split; auto. lia.
Qed.

(** When the rest of the pattern fails on any text that begins with a
    character of the class, the longest run is the only one that can do. *)
Lemma greedy_munch run : ∀ min acc rest r,
  (∀ a x t, p x = true → k a (String x t) = None) →
  all_in p run = true → min ≤ String.length run →
  k (acc +:+ run) rest = Some r →
  Regex.greedy p min acc (run +:+ rest) k = Some r.
Proof.
  induction run as [| x run IH]; intros min acc rest r Hrej Hall Hmin Hk.
  - simpl in *. rewrite append_empty_r in Hk.
    assert (min = 0) as -> by lia.
    destruct rest as [| y rest]; simpl; [exact Hk |].
    destruct (p y) eqn:Hpy; [| exact Hk].
    rewrite (Hrej acc y rest Hpy) in Hk. discriminate.
  - simpl in *. apply andb_true_iff in Hall as [Hpx Hall]. rewrite Hpx.
    rewrite (IH (pred min) (acc +:+ String x EmptyString) rest r);
      [reflexivity | exact Hrej | exact Hall | lia |].
    rewrite append_assoc. exact Hk.
Qed.

End Greedy.

Lemma class_disjoint_spec c c' :
  class_disjoint c c' = true →
  ∀ x, Regex.in_class c x = true → Regex.in_class c' x = false.
Proof.
  unfold class_disjoint. rewrite forallb_forall. intros H x Hx.
  assert (Hin : In (nat_of_ascii x) (seq 0 256)).
  { apply in_seq. pose proof (nat_ascii_bounded x). lia. }
  apply H in Hin. rewrite ascii_nat_embedding, Hx in Hin.
  destruct (Regex.in_class c' x); [discriminate | reflexivity].
Qed.

Lemma first_outside_rejects c rest :
  first_outside c rest = true →
  ∀ x t, Regex.in_class c x = true →
         Regex.match_items rest (String x t) = None.
Proof.
  destruct rest as [| [[| y l] | c' [| min] cap] rest]; simpl;
    try discriminate; intros Hout x t Hx.
  - destruct (Ascii.eqb_spec x y) as [-> | _]; [| reflexivity].
    rewrite Hx in Hout. discriminate.
  - rewrite (class_disjoint_spec c c' Hout x Hx). reflexivity.
Qed.

(** The matcher only returns what the pattern says. *)
Lemma match_items_sound items : ∀ s caps,
  Regex.match_items items s = Some caps → matches_items items s caps.
Proof.
  induction items as [| [l | c min cap] rest IH]; intros s caps; simpl.
  - intros [= <-]. constructor.
  - destruct (Js.startsWith s l) eqn:Hpre; [| discriminate].
    intros Hm. rewrite (startsWith_split s l Hpre).
    constructor. apply IH. exact Hm.
  - intros Hg. apply greedy_sound in Hg as (run & t & -> & Hall & Hmin & Hk).
    simpl in Hk.
    destruct (Regex.match_items rest t) as [caps' |] eqn:Hrest; [| discriminate].
    injection Hk as <-. constructor; auto.
Qed.

(** For an unambiguous pattern it returns all that the pattern says. *)
Lemma match_items_complete items s caps :
  unambiguous items = true →
  matches_items items s caps → Regex.match_items items s = Some caps.
Proof.
  intros Hun Hm. induction Hm as [s | l rest s caps _ IH
                                 | c min cap rest run s caps Hall Hmin _ IH];
    simpl in *.
  - reflexivity.
  - rewrite startsWith_append, slice_from_append. apply IH. exact Hun.
  - apply andb_true_iff in Hun as [Hout Hun].
    apply greedy_munch; auto.
    + intros a x t Hx. rewrite (first_outside_rejects c rest Hout x t Hx).
      reflexivity.
    + simpl. rewrite (IH Hun). reflexivity.
Qed.

Lemma match_items_iff items s caps :
  unambiguous items = true →
  (Regex.match_items items s = Some caps ↔ matches_items items s caps).
Proof.
  intros Hun. split; [apply match_items_sound | apply match_items_complete; exact Hun].
Qed.

Ltac invert_matches :=
  repeat match goal with
         | H : matches_items (_ :: _) _ _ |- _ => inversion H; subst; clear H
         | H : matches_items [] _ _ |- _ => inversion H; subst; clear H
         end.

Lemma length_pos_nonempty (s : string) : 1 ≤ String.length s ↔ s ≠ EmptyString.
Proof.
  destruct s; simpl; split; intros H; try congruence; lia.
Qed.

Lemma unambiguous_function_re : unambiguous Regex.function_re = true.
Proof. vm_compute. reflexivity. Qed.

Lemma unambiguous_assign_re : unambiguous Regex.assign_re = true.
Proof. vm_compute. reflexivity. Qed.

(** The pattern of the function-signature heuristic, in words. *)
Lemma function_re_shape sig caps :
  Regex.match_items Regex.function_re sig = Some caps
  ↔ ∃ f, caps = [f] ∧ function_signature_names sig f.
Proof.
  rewrite (match_items_iff _ _ _ unambiguous_function_re). split.
  - intros H. unfold Regex.function_re in H. invert_matches.
    eexists. split; [reflexivity |]. eexists _, _.
    split; [reflexivity |]. unfold blank, identifier.
    rewrite <- !length_pos_nonempty. auto.
  - intros (f & -> & ws & tail & -> & Hws & Hblank & Hf & Hword).
    apply length_pos_nonempty in Hws, Hf.
    apply matches_lit.
    apply (matches_rep Regex.Space 1 false); [exact Hblank | exact Hws |].
    apply (matches_rep Regex.Word 1 true _ f _ []); [exact Hword | exact Hf |].
    apply matches_lit. apply matches_end.
Qed.

Lemma names_function_spec f sig :
  FunctionSignatureHeuristic.names_function f sig = true
  ↔ Js.startsWith sig "function " = true ∧ function_signature_names sig f.
Proof.
  unfold FunctionSignatureHeuristic.names_function.
  destruct (Js.startsWith sig "function "); cbn [negb];
    [| split; [discriminate | intros [? _]; discriminate]].
  destruct (Regex.match_items Regex.function_re sig) as [caps |] eqn:Hm.
  - apply function_re_shape in Hm as (g & -> & Hg). cbn [nth].
    rewrite String.eqb_eq. split.
    + intros <-. auto.
    + intros [_ Hf].
      assert (Hgm : Regex.match_items Regex.function_re sig = Some [g])
        by (apply function_re_shape; eauto).
      assert (Hfm : Regex.match_items Regex.function_re sig = Some [f])
        by (apply function_re_shape; eauto).
      congruence.
  - split; [discriminate |]. intros [_ Hf].
    assert (Hfm : Regex.match_items Regex.function_re sig = Some [f])
      by (apply function_re_shape; eauto).
    congruence.
Qed.

(** C8. The matches of the function-signature heuristic are the entries of
    the graph, in graph order, that have type [Contract] and an ABI with at
    least one entry that starts with [function ] and reads: [function], white
    space, the called function's name exactly, an opening parenthesis. The
    heuristic returns no result exactly when there is no such entry, and an
    ABI entry that does not start with [function ] never counts, whatever
    name it carries. *)
Theorem function_signature_candidates (context : HeuristicContext) :
  let functionName := calledFunction (call context) in
  let graph := entries (discovered context) in
  ∃ keep : DiscoveredEntry → bool,
    (∀ e, keep e = true ↔
          e_type e = "Contract"
          ∧ ∃ abi sig,
              abis (discovered context) !! e_address e = Some abi
              ∧ In sig abi
              ∧ Js.startsWith sig "function " = true
              ∧ function_signature_names sig functionName)
    ∧ matches_of (FunctionSignatureHeuristic.apply context)
      = map entry_match (List.filter keep graph)
    ∧ (FunctionSignatureHeuristic.apply context = None
       ↔ List.filter keep graph = [])
    ∧ (∀ sig, Js.startsWith sig "function " = false →
         FunctionSignatureHeuristic.names_function functionName sig = false).
Proof.
  intros functionName graph.
  set (keep := fun e =>
    (String.eqb (e_type e) "Contract"
     && match abis (discovered context) !! e_address e with
        | Some abi =>
            existsb (FunctionSignatureHeuristic.names_function functionName) abi
        | None => false
        end)%bool).
  assert (Hfold : ∀ acc,
    fold_left (FunctionSignatureHeuristic.visit (discovered context) functionName)
      graph acc
    = acc ++ map entry_match (List.filter keep graph)).
  { apply fold_visit_filter. intros ms e.
    unfold FunctionSignatureHeuristic.visit, keep.
    destruct (String.eqb (e_type e) "Contract"); simpl; [| reflexivity].
    destruct (abis (discovered context) !! e_address e); reflexivity. }
  exists keep. split; [| split; [| split]].
  - intros e. unfold keep. rewrite andb_true_iff, String.eqb_eq.
    split; intros [Ht Habi]; (split; [exact Ht |]).
    + destruct (abis (discovered context) !! e_address e) as [abi |];
        [| discriminate].
      apply existsb_exists in Habi as (sig & Hin & Hn).
      apply names_function_spec in Hn as [Hk Hn]. eauto 6.
    + destruct Habi as (abi & sig & -> & Hin & Hk & Hn).
      apply existsb_exists. exists sig. split; [exact Hin |].
      apply names_function_spec. auto.
  - unfold FunctionSignatureHeuristic.apply. fold functionName. fold graph.
    rewrite Hfold. simpl app. destruct (List.filter keep graph); reflexivity.
  - unfold FunctionSignatureHeuristic.apply. fold functionName. fold graph.
    rewrite Hfold. simpl app.
    destruct (List.filter keep graph); simpl; split; congruence.
  - intros sig Hk. unfold FunctionSignatureHeuristic.names_function.
    rewrite Hk. reflexivity.
Qed.

Lemma function_signature_candidates_witness :
  ∃ keep : DiscoveredEntry → bool,
    matches_of (FunctionSignatureHeuristic.apply Sample.cachedCall)
    = map entry_match
        (List.filter keep (entries (discovered Sample.cachedCall)))
    ∧ FunctionSignatureHeuristic.names_function "liquidate"
        "event liquidate(address borrower)" = false.
Proof.
  destruct (function_signature_candidates Sample.cachedCall)
    as (keep & _ & Hm & _ & Hskip).
  exists keep. split; [exact Hm |]. apply Hskip. reflexivity.
Defined.

Example function_signature_scenario :
  FunctionSignatureHeuristic.apply Sample.cachedCall
  = Some {| matches := [entry_match Sample.troveManager]; confidence := 99 |}.
Proof. vm_compute. reflexivity. Qed.

(* ======================================================================= *)
(** ** Facts: parsing the assignments *)
(* ======================================================================= *)

(** The pattern of the parser, in words. *)
Lemma assign_re_shape line caps :
  Regex.match_items Regex.assign_re line = Some caps
  ↔ ∃ target source,
      caps = [target; source] ∧ assignment_shape line target source.
Proof.
  rewrite (match_items_iff _ _ _ unambiguous_assign_re). split.
  - intros H. unfold Regex.assign_re in H. invert_matches.
    eexists _, _. split; [reflexivity |].
    eexists _, _, _, _, _. split; [reflexivity |].
    unfold blank, identifier. rewrite <- !length_pos_nonempty. auto 10.
  - intros (target & source & -> & ws0 & ty & ws1 & ws2 & tail & ->
            & Hws0 & [Ht Htw] & Hty & Htyc & Hws1 & Hws2 & [Hs Hsw]).
    apply length_pos_nonempty in Ht, Hty, Hs.
    apply (matches_rep Regex.Space 0 false); [exact Hws0 | lia |].
    apply (matches_rep Regex.Word 1 true _ target _ [source]);
      [exact Htw | exact Ht |].
    apply matches_lit.
    apply (matches_rep (Regex.NotChar ")"%char) 1 false);
      [exact Htyc | exact Hty |].
    apply matches_lit.
    apply (matches_rep Regex.Space 0 false); [exact Hws1 | lia |].
    apply matches_lit.
    apply (matches_rep Regex.Space 0 false); [exact Hws2 | lia |].
    apply (matches_rep Regex.Word 1 true _ source _ []);
      [exact Hsw | exact Hs |].
    apply matches_lit. apply matches_end.
Qed.

(** A line has one reading as an assignment at most. *)
Lemma assignment_shape_functional line t s t' s' :
  assignment_shape line t s → assignment_shape line t' s' → t = t' ∧ s = s'.
Proof.
  intros H H'.
  assert (Regex.match_items Regex.assign_re line = Some [t; s])
    by (apply assign_re_shape; eauto).
  assert (Regex.match_items Regex.assign_re line = Some [t'; s'])
    by (apply assign_re_shape; eauto).
  split; congruence.
Qed.

Lemma truthy_spec (s : string) : Js.truthy s = true ↔ s ≠ EmptyString.
Proof. destruct s; simpl; split; congruence. Qed.

(** The loop body sets the entry of a line that reads as an assignment. *)
Lemma parse_line_assignment m line target source :
  assignment_shape line target source →
  parse_line m line = <[target := source]> m.
Proof.
  intros Hshape. unfold parse_line.
  assert (Hm : Regex.match_items Regex.assign_re line = Some [target; source])
    by (apply assign_re_shape; eauto).
  rewrite Hm. cbn [nth].
  destruct Hshape as (_ & _ & _ & _ & _ & _ & _ & [Ht _] & _ & _ & _ & _ & [Hs _]).
  apply truthy_spec in Ht, Hs. rewrite Ht, Hs. reflexivity.
Qed.

(** It leaves the map alone on any other line. *)
Lemma parse_line_other m line :
  (∀ target source, ¬ assignment_shape line target source) →
  parse_line m line = m.
Proof.
  intros Hno. unfold parse_line.
  destruct (Regex.match_items Regex.assign_re line) as [caps |] eqn:Hm;
    [| reflexivity].
  apply assign_re_shape in Hm as (t & s & _ & Hshape).
  destruct (Hno t s Hshape).
Qed.

Lemma parse_line_cases m line :
  parse_line m line = m
  ∨ ∃ target source,
      assignment_shape line target source
      ∧ parse_line m line = <[target := source]> m.
Proof.
  unfold parse_line.
  destruct (Regex.match_items Regex.assign_re line) as [caps |] eqn:Hm;
    [| left; reflexivity].
  apply assign_re_shape in Hm as (t & s & -> & Hshape). cbn [nth].
  destruct (_ && _)%bool; [right; eauto | left; reflexivity].
Qed.

(** Lines that do not assign to [target] do not touch its entry. *)
Lemma fold_parse_line_untouched target after : ∀ m,
  (∀ l s, In l after → ¬ assignment_shape l target s) →
  fold_left parse_line after m !! target = m !! target.
Proof.
  induction after as [| l after IH]; intros m Hno; simpl; [reflexivity |].
  rewrite IH by (intros l' s Hin; apply Hno; right; exact Hin).
  destruct (parse_line_cases m l) as [-> | (t & s & Hshape & ->)];
    [reflexivity |].
  apply lookup_insert_ne. intros ->.
  apply (Hno l s); [left; reflexivity | exact Hshape].
Qed.

Lemma split_lines_nonempty s : Js.split_lines s ≠ [].
Proof.
  destruct s as [| c s]; simpl; [discriminate |].
  destruct (Ascii.eqb c "010"); [discriminate |].
  destruct (Js.split_lines s); discriminate.
Qed.

(** Splitting a text that is two texts joined by a line feed. *)
Lemma split_lines_append a b :
  Js.split_lines (a +:+ newline +:+ b) = Js.split_lines a ++ Js.split_lines b.
Proof.
  induction a as [| c a IH]; [reflexivity |].
  change (String c a +:+ newline +:+ b) with (String c (a +:+ newline +:+ b)).
  cbn [Js.split_lines]. rewrite IH.
  destruct (Ascii.eqb c "010"); [reflexivity |].
  pose proof (split_lines_nonempty a) as Hne.
  destruct (Js.split_lines a); [congruence | reflexivity].
Qed.

Lemma split_lines_single line :
  all_in (fun c => negb (Ascii.eqb c "010"%char)) line = true →
  Js.split_lines line = [line].
Proof.
  induction line as [| c line IH]; simpl; [reflexivity |].
  intros H. apply andb_true_iff in H as [Hc Hl].
  apply negb_true_iff in Hc. rewrite Hc, (IH Hl). reflexivity.
Qed.

Lemma parse_append_line text line :
  all_in (fun c => negb (Ascii.eqb c "010"%char)) line = true →
  parseVariableAssignments (text +:+ newline +:+ line)
  = parse_line (parseVariableAssignments text) line.
Proof.
  intros Hline. unfold parseVariableAssignments.
  rewrite split_lines_append, (split_lines_single line Hline).
  rewrite fold_left_app. reflexivity.
Qed.

(** C9. For every text: a line that reads as an assignment of [source] to
    [target] (optional white space, identifier, type annotation in
    parentheses, [:=], identifier, opening parenthesis) and is followed by no
    line that assigns to [target] makes [source] the entry of [target] in the
    map; a name that no line assigns to has no entry. Line by line: adding a
    line of that shape to the text sets the entry of its target to its
    source, over any earlier one, and adding any other line leaves the map
    as it was. *)
Theorem parseVariableAssignments_last_assignment_wins (slithirOutput : string) :
  let lines := Js.split_lines slithirOutput in
  let assignments := parseVariableAssignments slithirOutput in
  (∀ before line after target source,
     lines = before ++ line :: after →
     assignment_shape line target source →
     (∀ l s, In l after → ¬ assignment_shape l target s) →
     assignments !! target = Some source)
  ∧ (∀ target,
       (∀ l s, In l lines → ¬ assignment_shape l target s) →
       assignments !! target = None)
  ∧ (∀ line,
       all_in (fun c => negb (Ascii.eqb c "010"%char)) line = true →
       let extended :=
         parseVariableAssignments (slithirOutput +:+ newline +:+ line) in
       (∀ target source,
          assignment_shape line target source →
          extended = <[target := source]> assignments)
       ∧ ((∀ target source, ¬ assignment_shape line target source) →
          extended = assignments)).
Proof.
  intros lines assignments. split; [| split].
  - intros before line after target source Hlines Hshape Hafter.
    subst assignments. unfold parseVariableAssignments. fold lines.
    rewrite Hlines, fold_left_app. simpl.
    rewrite (fold_parse_line_untouched target after _ Hafter).
    rewrite (parse_line_assignment _ _ _ _ Hshape).
    apply lookup_insert_eq.
  - intros target Hno.
    subst assignments. unfold parseVariableAssignments. fold lines.
    rewrite (fold_parse_line_untouched target lines ∅ Hno).
    apply lookup_empty.
  - intros line Hline extended. subst extended assignments.
    rewrite (parse_append_line _ _ Hline). split.
    + intros target source Hshape. apply parse_line_assignment. exact Hshape.
    + intros Hno. apply parse_line_other. exact Hno.
Qed.

Lemma parseVariableAssignments_last_assignment_wins_witness :
  parseVariableAssignments
    ("x(T) := y(T)" +:+ newline +:+ "not an assignment" +:+ newline
     +:+ "  x(T):=z(T)") !! "x"
  = Some "z".
Proof.
  destruct (parseVariableAssignments_last_assignment_wins
              ("x(T) := y(T)" +:+ newline +:+ "not an assignment" +:+ newline
               +:+ "  x(T):=z(T)")) as (Hlast & _ & _).
  apply (Hlast ["x(T) := y(T)"; "not an assignment"] "  x(T):=z(T)" []
           "x" "z").
  - vm_compute. reflexivity.
  - exists "  ", "T", EmptyString, EmptyString, "T)".
    unfold blank, identifier.
    repeat split; try reflexivity; discriminate.
  - intros l s [].
Defined.

(** The text of scenario A, and what the walk makes of it. *)
Example parseVariableAssignments_scenario :
  parseVariableAssignments
    "troveManagerCached(ITroveManager) := troveManager(ITroveManager)"
  = {[ "troveManagerCached" := "troveManager" ]}.
Proof. vm_compute. reflexivity. Qed.

(* ======================================================================= *)
(** ** More on the bounded walk *)
(* ======================================================================= *)

Section ChainWalkMore.

Import VariableChain.

Variable assignments : gmap string string.

Lemma follows_deterministic v n x y :
  follows assignments v n x → follows assignments v n y → x = y.
Proof.
  intros Hx. revert y. induction Hx as [| n x x' Hx IH Hhop]; intros y Hy.
  - inversion Hy. reflexivity.
  - inversion Hy as [| n' z z' Hz Hhop']; subst.
    rewrite (IH z Hz) in Hhop. congruence.
Qed.

Lemma follows_trans v a x b y :
  follows assignments v a x → follows assignments x b y →
  follows assignments v (a + b) y.
Proof.
  intros Hx Hy. induction Hy as [| b y y' _ IH Hhop].
  - rewrite Nat.add_0_r. exact Hx.
  - rewrite Nat.add_succ_r. eapply follows_hop; eauto.
Qed.

(** Before its last name, every name of a walk has an entry. *)
Lemma follows_prefix v n x k :
  follows assignments v n x → k < n →
  ∃ y, follows assignments v k y ∧ is_Some (assignments !! y).
Proof.
  intros Hx. induction Hx as [| n x x' Hx IH Hhop]; intros Hk; [lia |].
  destruct (Nat.eq_dec k n) as [-> | Hne].
  - exists x. eauto.
  - apply IH. lia.
Qed.

(** A walk of [n] hops that is cut by the bound or ends on a name without
    entry is the walk the loop makes. *)
Lemma walk_exact v n x :
  follows assignments v n x → n ≤ 10 →
  (n < 10 → assignments !! x = None) →
  resolveVariableChain v assignments = x.
Proof.
  intros Hx Hn Hend.
  destruct (loop_from assignments 10 10 v 0 eq_refl)
    as (hops & final & Hle & Hrun & Hfol & Hstop).
  unfold resolveVariableChain, resolveVariableChainAt, defaultMaxDepth, run_loop.
  rewrite Hrun by lia. simpl.
  destruct (Nat.lt_trichotomy hops n) as [Hlt | [-> | Hgt]].
  - destruct (follows_prefix v n x hops Hx Hlt) as (y & Hy & [z Hz]).
    rewrite (follows_deterministic _ _ _ _ Hfol Hy) in Hstop.
    rewrite Hstop in Hz by lia. discriminate.
  - eapply follows_deterministic; eauto.
  - destruct (follows_prefix v hops final n Hfol Hgt) as (y & Hy & [z Hz]).
    rewrite (follows_deterministic _ _ _ _ Hy Hx) in Hz.
    rewrite Hend in Hz by lia. discriminate.
Qed.

Lemma follows_laps v d k :
  follows assignments v d v → follows assignments v (k * d) v.
Proof.
  intros Hd. induction k as [| k IH]; simpl; [constructor |].
  rewrite Nat.add_comm. eapply follows_trans; eauto.
Qed.

Lemma walk_on_cycle v d x :
  0 < d → follows assignments v d v →
  follows assignments v (10 mod d) x →
  resolveVariableChain v assignments = x.
Proof.
  intros Hd Hcycle Hrest.
  apply (walk_exact v 10 x); [| lia | lia].
  replace 10 with ((10 / d) * d + 10 mod d) at 1.
  - eapply follows_trans; [apply follows_laps; exact Hcycle | exact Hrest].
  - rewrite Nat.mul_comm. symmetry. apply Nat.div_mod_eq.
Qed.

End ChainWalkMore.

(** X1. A chain of assignments that is at most 10 long is followed to its
    end: when [n <= 10] hops lead from the start to a name, and that name has
    no entry in the map (or [n] is 10), the walk returns that name. *)
Theorem resolveVariableChain_reaches_root
    (assignments : gmap string string) (variable root : string) (n : nat) :
  VariableChain.follows assignments variable n root →
  n ≤ 10 →
  (n < 10 → assignments !! root = None) →
  VariableChain.resolveVariableChain variable assignments = root.
Proof. apply walk_exact. Qed.

Lemma resolveVariableChain_reaches_root_witness :
  VariableChain.resolveVariableChain "c"
    {[ "c" := "b"; "b" := "a" ]} = "a".
Proof.
  apply (resolveVariableChain_reaches_root _ "c" "a" 2).
  - apply VariableChain.follows_hop with (x := "b").
    + apply VariableChain.follows_hop with (x := "c");
        [constructor | reflexivity].
    + reflexivity.
  - lia.
  - intros _. reflexivity.
Defined.

(** X2. On a cycle the walk does not stop before the bound: when the start
    lies on a cycle of [d] names, the walk returns the name [10 mod d] hops
    after the start. *)
Theorem resolveVariableChain_on_cycle
    (assignments : gmap string string) (variable x : string) (d : nat) :
  0 < d →
  VariableChain.follows assignments variable d variable →
  VariableChain.follows assignments variable (10 mod d) x →
  VariableChain.resolveVariableChain variable assignments = x.
Proof. apply walk_on_cycle. Qed.

Lemma resolveVariableChain_on_cycle_witness :
  VariableChain.resolveVariableChain "a"
    {[ "a" := "b"; "b" := "c"; "c" := "a" ]} = "b".
Proof.
  apply (resolveVariableChain_on_cycle _ "a" "b" 3).
  - lia.
  - apply VariableChain.follows_hop with (x := "c"); [| reflexivity].
    apply VariableChain.follows_hop with (x := "b"); [| reflexivity].
    apply VariableChain.follows_hop with (x := "a"); [| reflexivity].
    constructor.
  - apply VariableChain.follows_hop with (x := "a"); [| reflexivity].
    constructor.
Defined.

(** X3. A storage variable on a cycle of 1, 2, 5 or 10 assignments is where
    the walk ends, and the variable-chain heuristic returns no result for
    it, whatever the graph holds; so does a storage variable without entry
    in the assignment map. *)
Theorem variable_chain_no_progress (context : HeuristicContext) (d : nat) :
  let v := storageVariable (call context) in
  let m := variableAssignments context in
  (m !! v = None ∨ (0 < d ∧ 10 mod d = 0 ∧ VariableChain.follows m v d v)) →
  VariableChainHeuristic.apply context = None.
Proof.
  intros v m H. unfold VariableChainHeuristic.apply. fold v. fold m.
  assert (Hv : VariableChain.resolveVariableChain v m = v).
  { destruct H as [Hnone | (Hd & Hmod & Hcycle)].
    - apply (walk_exact m v 0 v); [constructor | lia | auto].
    - apply (walk_on_cycle m v d v Hd Hcycle). rewrite Hmod. constructor. }
  rewrite Hv, String.eqb_refl. reflexivity.
Qed.

Lemma variable_chain_no_progress_witness :
  VariableChainHeuristic.apply
    {| call := call Sample.cachedCall;
       callerContractAddress := "eth:0x1111";
       discovered := Sample.liquity;
       variableAssignments :=
         {[ "troveManagerCached" := "troveManager";
            "troveManager" := "troveManagerCached" ]} |} = None.
Proof.
  apply (variable_chain_no_progress _ 2). right.
  split; [lia |]. split; [reflexivity |].
  apply VariableChain.follows_hop with (x := "troveManager"); [| reflexivity].
  apply VariableChain.follows_hop with (x := "troveManagerCached");
    [| reflexivity].
  constructor.
Defined.

(* ======================================================================= *)
(** ** More on the variable-chain heuristic and the engine *)
(* ======================================================================= *)


Lemma collect_app context hs hs' :
  collect context (hs ++ hs') = collect context hs ++ collect context hs'.
Proof.
  unfold collect. apply omap_app.
Qed.

Lemma collect_one context h :
  collect context [h]
  = match apply h context with
    | Some r => [{| heuristic := h; result := r |}]
    | None => []
    end.
Proof. unfold collect. simpl. destruct (apply h context); reflexivity. Qed.

Section SortHead.

Context {A : Type} (key : A → Z).

Ltac compare_keys :=
  repeat match goal with
         | |- context [(?a <? ?b)%Z] => destruct (Z.ltb_spec a b)
         | |- context [(?a <=? ?b)%Z] => destruct (Z.leb_spec a b)
         end;
  try reflexivity; exfalso; lia.

Lemma head_sort_insert x (s : list A) :
  head (sort_insert (fun a b => (key b - key a)%Z) x s)
  = match head s with
    | None => Some x
    | Some w => if (key w <=? key x)%Z then Some x else Some w
    end.
Proof.
  destruct s as [| w s]; simpl; [reflexivity |]. compare_keys.
Qed.

(** The head after one more element at the end of the array: the new element
    only if its key is strictly larger than that of the old head. *)
Lemma head_sort_snoc (l : list A) x :
  head (sort (fun a b => (key b - key a)%Z) (l ++ [x]))
  = match head (sort (fun a b => (key b - key a)%Z) l) with
    | None => Some x
    | Some w => if (key w <? key x)%Z then Some x else Some w
    end.
Proof.
  induction l as [| y l IH]; [reflexivity |].
  cbn [app sort]. rewrite !head_sort_insert, IH.
  destruct (head (sort _ l)) as [w |]; compare_keys.
Qed.

End SortHead.

Lemma resolve_value_head engine context onProgress :
  value (resolve engine context onProgress)
  = decision_of
      <$> head (sort by_confidence_desc (collect context (heuristics engine))).
Proof.
  rewrite resolve_value. destruct (sort _ _); reflexivity.
Qed.

(** X5. Registering one more heuristic changes the decision only when that
    heuristic returns a result of strictly higher confidence than the
    decision made without it, or when there was no decision. *)
Theorem register_changes_decision_only_by_higher_confidence
    (engine : HeuristicEngine) (h : ResolutionHeuristic)
    (context : HeuristicContext) (onProgress : bool) :
  value (resolve (register h engine) context onProgress)
  = match apply h context, value (resolve engine context onProgress) with
    | None, before => before
    | Some r, None =>
        Some (decision_of {| heuristic := h; result := r |})
    | Some r, Some d =>
        if (d_confidence d <? confidence r)%Z
        then Some (decision_of {| heuristic := h; result := r |})
        else Some d
    end.
Proof.
  rewrite !resolve_value_head. unfold register. cbn [heuristics].
  rewrite collect_app, collect_one.
  destruct (apply h context) as [r |].
  - change (sort by_confidence_desc)
      with (sort (fun a b : Collected =>
                    (confidence (result b) - confidence (result a))%Z)).
    rewrite (head_sort_snoc (fun c => confidence (result c))).
    destruct (head _) as [w |]; cbn; [| reflexivity].
    destruct (_ <? _)%Z; reflexivity.
  - rewrite app_nil_r. reflexivity.
Qed.

(** X6. Whether a progress callback is passed has no bearing on the
    decision, of [resolve] and of [resolveAsync] alike. *)
Theorem decision_independent_of_progress
    (engine : HeuristicEngine) (context : HeuristicContext) :
  value (resolve engine context true) = value (resolve engine context false)
  ∧ value (settle (resolveAsync engine context true))
    = value (settle (resolveAsync engine context false))
  ∧ trace (resolve engine context false) = []
  ∧ trace (settle (resolveAsync engine context false)) = [].
Proof.
  rewrite !settle_resolveAsync, !resolve_value, resolve_trace. auto.
Qed.

Ltac split_comparisons :=
  repeat match goal with
         | |- context [(?a <? ?b)%Z] => destruct (Z.ltb_spec a b)
         | |- context [(?a <=? ?b)%Z] => destruct (Z.leb_spec a b)
         end;
  try reflexivity; try (exfalso; lia).

Lemma InterfaceName_confidence_values context r :
  InterfaceNameHeuristic.apply context = Some r →
  (length (matches r) = 1 ∧ confidence r = 90%Z)
  ∨ (length (matches r) = 2 ∧ confidence r = 60%Z)
  ∨ (3 ≤ length (matches r) ∧ confidence r = 40%Z).
Proof.
  intros H. apply InterfaceName_apply_inv in H as [Hn ->].
  unfold InterfaceNameHeuristic.calculateConfidence.
  destruct (length (matches r)) as [| [| [| n]]]; simpl; try lia; auto.
Qed.

Lemma FunctionSignature_confidence_values context r :
  FunctionSignatureHeuristic.apply context = Some r →
  (length (matches r) = 1 ∧ confidence r = 99%Z)
  ∨ (length (matches r) = 2 ∧ confidence r = 50%Z)
  ∨ (3 ≤ length (matches r) ∧ confidence r = 30%Z).
Proof.
  intros H. apply FunctionSignature_apply_inv in H as [Hn ->].
  unfold FunctionSignatureHeuristic.calculateConfidence.
  destruct (length (matches r)) as [| [| [| n]]]; simpl; try lia; auto.
Qed.

(** X7. The decision of the default engine, spelled out. A result of the
    variable-chain heuristic always wins. Without one, the function-signature
    result wins over the interface-name result exactly when its confidence is
    strictly higher, which is when it has one match, or two matches against
    three or more of the interface-name heuristic; a lone result wins, and
    no result gives no decision. *)
Theorem default_engine_priority
    (context : HeuristicContext) (onProgress : bool) :
  let won h r := Some (decision_of {| heuristic := h; result := r |}) in
  value (resolve createHeuristicEngine context onProgress)
  = match VariableChainHeuristic.apply context with
    | Some r => won variableChainHeuristic r
    | None =>
        match InterfaceNameHeuristic.apply context,
              FunctionSignatureHeuristic.apply context with
        | Some a, Some b =>
            if (Nat.eqb (length (matches b)) 1
                || (Nat.eqb (length (matches b)) 2
                    && Nat.leb 3 (length (matches a))))%bool
            then won functionSignatureHeuristic b
            else won interfaceNameHeuristic a
        | Some a, None => won interfaceNameHeuristic a
        | None, Some b => won functionSignatureHeuristic b
        | None, None => None
        end
    end.
Proof.
  intros won. rewrite resolve_value.
  change (heuristics createHeuristicEngine)
    with [variableChainHeuristic; interfaceNameHeuristic;
          functionSignatureHeuristic].
  unfold collect. cbn [omap list_omap apply variableChainHeuristic
                         interfaceNameHeuristic functionSignatureHeuristic].
  destruct (VariableChainHeuristic.apply context) as [v |] eqn:Hv;
    destruct (InterfaceNameHeuristic.apply context) as [a |] eqn:Ha;
    destruct (FunctionSignatureHeuristic.apply context) as [b |] eqn:Hb;
    try (apply VariableChain_apply_inv in Hv as [_ Hv]);
    try (apply InterfaceName_confidence_values in Ha
           as [[Hna Ha] | [[Hna Ha] | [Hna Ha]]]);
    try (apply FunctionSignature_confidence_values in Hb
           as [[Hnb Hb] | [[Hnb Hb] | [Hnb Hb]]]);
    cbn [sort sort_insert]; unfold by_confidence_desc; cbn [result];
    repeat (match goal with
            | |- context [(?x <=? ?y)%Z] => destruct (Z.leb_spec x y)
            end; cbn [sort_insert result]);
    try (exfalso; lia); try reflexivity.
  all: destruct (length (matches a)) as [| [| [| na]]];
       destruct (length (matches b)) as [| [| [| nb]]];
       try (exfalso; lia); reflexivity.
Qed.

(** X8. No two heuristics of the default engine can return the same
    confidence for one context, so its decisions never rest on the order of
    registration among equals. *)
Theorem default_engine_has_no_ties
    (context : HeuristicContext) (v a b : HeuristicResult) :
  (VariableChainHeuristic.apply context = Some v →
   InterfaceNameHeuristic.apply context = Some a →
   confidence v ≠ confidence a)
  ∧ (VariableChainHeuristic.apply context = Some v →
     FunctionSignatureHeuristic.apply context = Some b →
     confidence v ≠ confidence b)
  ∧ (InterfaceNameHeuristic.apply context = Some a →
     FunctionSignatureHeuristic.apply context = Some b →
     confidence a ≠ confidence b).
Proof.
  repeat split; intros H1 H2;
    try (apply VariableChain_apply_inv in H1 as [_ H1]);
    try (apply InterfaceName_confidence_values in H1
           as [[_ H1] | [[_ H1] | [_ H1]]]);
    try (apply InterfaceName_confidence_values in H2
           as [[_ H2] | [[_ H2] | [_ H2]]]);
    try (apply FunctionSignature_confidence_values in H2
           as [[_ H2] | [[_ H2] | [_ H2]]]);
    rewrite H1, H2; discriminate.
Qed.

Lemma default_engine_has_no_ties_witness :
  ∃ a b,
    InterfaceNameHeuristic.apply Sample.cachedCall = Some a
    ∧ FunctionSignatureHeuristic.apply Sample.cachedCall = Some b
    ∧ confidence a ≠ confidence b.
Proof.
  assert (Ha : InterfaceNameHeuristic.apply Sample.cachedCall
               = Some {| matches := [entry_match Sample.troveManager];
                         confidence := 90 |})
    by (vm_compute; reflexivity).
  assert (Hb : FunctionSignatureHeuristic.apply Sample.cachedCall
               = Some {| matches := [entry_match Sample.troveManager];
                         confidence := 99 |})
    by (vm_compute; reflexivity).
  eexists _, _. split; [exact Ha |]. split; [exact Hb |].
  destruct (default_engine_has_no_ties Sample.cachedCall
              {| matches := []; confidence := 0 |}
              {| matches := [entry_match Sample.troveManager];
                 confidence := 90 |}
              {| matches := [entry_match Sample.troveManager];
                 confidence := 99 |}) as (_ & _ & H).
  exact (H Ha Hb).
Defined.

(* ======================================================================= *)
(** ** More on the parser and the two scanning heuristics *)
(* ======================================================================= *)

(** X9. Every entry of the parsed map comes from a line of the text that
    reads as that assignment; so the keys and the values of the map are
    identifiers, never empty. *)
Theorem parseVariableAssignments_entries_come_from_lines
    (slithirOutput target source : string) :
  parseVariableAssignments slithirOutput !! target = Some source →
  (∃ line, In line (Js.split_lines slithirOutput)
           ∧ assignment_shape line target source)
  ∧ identifier target ∧ identifier source.
Proof.
  unfold parseVariableAssignments.
  assert (Hinv : ∀ lines (m : gmap string string),
    (∀ t s, m !! t = Some s →
       ∃ line, In line (Js.split_lines slithirOutput)
               ∧ assignment_shape line t s) →
    (∀ l, In l lines → In l (Js.split_lines slithirOutput)) →
    ∀ t s, fold_left parse_line lines m !! t = Some s →
      ∃ line, In line (Js.split_lines slithirOutput)
              ∧ assignment_shape line t s).
  { induction lines as [| l lines IH]; intros m Hm Hsub t s; simpl; [auto |].
    apply IH; [| intros l' Hl'; apply Hsub; right; exact Hl'].
    intros t' s'.
    destruct (parse_line_cases m l) as [-> | (t0 & s0 & Hshape & ->)]; [auto |].
    destruct (decide (t0 = t')) as [-> | Hne].
    - rewrite lookup_insert_eq. intros [= <-]. exists l. split; [| exact Hshape].
      apply Hsub. left. reflexivity.
    - rewrite lookup_insert_ne by exact Hne. auto. }
  intros Hlook.
  destruct (Hinv (Js.split_lines slithirOutput) ∅) with (t := target) (s := source)
    as (line & Hin & Hshape); auto.
  { intros t s. rewrite lookup_empty. discriminate. }
  split; [eauto |].
  destruct Hshape as (? & ? & ? & ? & ? & _ & _ & Ht & _ & _ & _ & _ & Hs).
  auto.
Qed.

Lemma parseVariableAssignments_entries_come_from_lines_witness :
  identifier "troveManagerCached" ∧ identifier "troveManager".
Proof.
  apply (parseVariableAssignments_entries_come_from_lines
           "troveManagerCached(ITroveManager) := troveManager(ITroveManager)").
  vm_compute. reflexivity.
Defined.

Lemma parse_line_union (m : gmap string string) line :
  parse_line m line = parse_line ∅ line ∪ m.
Proof.
  unfold parse_line.
  destruct (Regex.match_items Regex.assign_re line) as [caps |];
    [| rewrite (left_id_L ∅ (∪)); reflexivity].
  destruct (_ && _)%bool; [| rewrite (left_id_L ∅ (∪)); reflexivity].
  rewrite <- insert_union_l, (left_id_L ∅ (∪)). reflexivity.
Qed.

Lemma fold_parse_line_union lines : ∀ m : gmap string string,
  fold_left parse_line lines m = fold_left parse_line lines ∅ ∪ m.
Proof.
  induction lines as [| l lines IH]; intros m; simpl.
  - rewrite (left_id_L ∅ (∪)). reflexivity.
  - rewrite (IH (parse_line m l)), (IH (parse_line ∅ l)).
    rewrite (parse_line_union m l), (assoc_L (∪)). reflexivity.
Qed.

(** X10. Parsing two texts joined by a line feed gives the union of their
    maps in which the entries of the second text take precedence. *)
Theorem parseVariableAssignments_append (first second : string) :
  parseVariableAssignments (first +:+ newline +:+ second)
  = parseVariableAssignments second ∪ parseVariableAssignments first.
Proof.
  unfold parseVariableAssignments.
  rewrite split_lines_append, fold_left_app. apply fold_parse_line_union.
Qed.

(** The name an ABI entry is taken for is an identifier, and only one. *)
Lemma names_function_name f sig :
  FunctionSignatureHeuristic.names_function f sig = true →
  identifier f
  ∧ ∀ g, FunctionSignatureHeuristic.names_function g sig = true → g = f.
Proof.
  intros Hf. apply names_function_spec in Hf as [_ Hf]. split.
  - destruct Hf as (? & ? & _ & _ & _ & Hid). exact Hid.
  - intros g Hg. apply names_function_spec in Hg as [_ Hg].
    assert (Regex.match_items Regex.function_re sig = Some [f])
      by (apply function_re_shape; eauto).
    assert (Regex.match_items Regex.function_re sig = Some [g])
      by (apply function_re_shape; eauto).
    congruence.
Qed.

Lemma fold_visit_nothing {A : Type}
    (visit : list HeuristicMatch → A → list HeuristicMatch) (es : list A) :
  (∀ ms e, visit ms e = ms) → ∀ acc, fold_left visit es acc = acc.
Proof.
  intros Hv. induction es as [| e es IH]; intros acc; simpl; [reflexivity |].
  rewrite Hv. apply IH.
Qed.

(** X11. An ABI entry counts for one function name at most, and that name is
    an identifier. So a call whose called function is not an identifier (the
    empty string, a name with a dot or a parenthesis) gets no result from the
    function-signature heuristic, whatever the graph. *)
Theorem function_signature_needs_identifier (context : HeuristicContext) :
  (∀ f g sig,
     FunctionSignatureHeuristic.names_function f sig = true →
     FunctionSignatureHeuristic.names_function g sig = true → f = g)
  ∧ (¬ identifier (calledFunction (call context)) →
     FunctionSignatureHeuristic.apply context = None).
Proof.
  split.
  - intros f g sig Hf Hg.
    destruct (names_function_name f sig Hf) as [_ Hu]. symmetry. auto.
  - intros Hnot. unfold FunctionSignatureHeuristic.apply.
    rewrite fold_visit_nothing; [reflexivity |].
    intros ms e. unfold FunctionSignatureHeuristic.visit.
    destruct (negb _); [reflexivity |].
    destruct (abis (discovered context) !! e_address e) as [abi |];
      [| reflexivity].
    destruct (existsb _ abi) eqn:Hex; [| reflexivity].
    apply existsb_exists in Hex as (sig & _ & Hsig).
    destruct (names_function_name _ _ Hsig) as [Hid _]. contradiction.
Qed.

Lemma function_signature_needs_identifier_witness :
  FunctionSignatureHeuristic.apply
    {| call := {| storageVariable := "troveManagerCached";
                  interfaceType := "ITroveManager";
                  calledFunction := "liquidate(address)" |};
       callerContractAddress := "eth:0x1111";
       discovered := Sample.liquity;
       variableAssignments := ∅ |} = None.
Proof.
  apply function_signature_needs_identifier.
  intros [_ Hword]. vm_compute in Hword. discriminate.
Defined.

(** X12. The interface-name heuristic reads the interface type and the
    contract names without regard to letter casing, the leading [I] apart:
    two calls against one graph whose interface types both start with [I]
    and are equal up to casing get the same result. *)
Theorem interface_name_ignores_casing (c c' : HeuristicContext) :
  discovered c = discovered c' →
  Js.startsWith (interfaceType (call c)) "I" = true →
  Js.startsWith (interfaceType (call c')) "I" = true →
  same_letters (interfaceType (call c)) (interfaceType (call c')) →
  InterfaceNameHeuristic.apply c = InterfaceNameHeuristic.apply c'.
Proof.
  intros Hd Hi Hi' Hsame. unfold InterfaceNameHeuristic.apply.
  rewrite <- Hd, Hi, Hi'.
  apply startsWith_I in Hi as [rest Hrest], Hi' as [rest' Hrest'].
  rewrite Hrest, Hrest' in *. unfold same_letters in Hsame.
  simpl in Hsame. injection Hsame as Hsame.
  assert (Hlen : String.length rest = String.length rest').
  { clear -Hsame. revert rest' Hsame.
    induction rest as [| x rest IH]; intros [| y rest'] H; simpl in *;
      try discriminate; [reflexivity |].
    injection H as _ H. f_equal. apply IH. exact H. }
  simpl. rewrite <- Hlen.
  assert (Hvisit : ∀ ms e,
    InterfaceNameHeuristic.visit rest ms e
    = InterfaceNameHeuristic.visit rest' ms e).
  { intros ms e. unfold InterfaceNameHeuristic.visit. rewrite Hsame.
    reflexivity. }
  assert (Hfold : ∀ es acc,
    fold_left (InterfaceNameHeuristic.visit rest) es acc
    = fold_left (InterfaceNameHeuristic.visit rest') es acc).
  { induction es as [| e es IH]; intros acc; simpl; [reflexivity |].
    rewrite Hvisit. apply IH. }
  rewrite Hfold. reflexivity.
Qed.

Lemma interface_name_ignores_casing_witness :
  InterfaceNameHeuristic.apply Sample.twoVaults
  = InterfaceNameHeuristic.apply
      {| call := {| storageVariable := "vault";
                    interfaceType := "IVAULT";
                    calledFunction := "deposit" |};
         callerContractAddress := "eth:0x1111";
         discovered := discovered Sample.twoVaults;
         variableAssignments := ∅ |}.
Proof.
  apply interface_name_ignores_casing; reflexivity.
Defined.

(* ======================================================================= *)
(** ** The admins inventory panel *)
(* ======================================================================= *)

Section WorstGrade.

Import AdminsInventory.

Lemma fold_worse_some fs : ∀ w,
  ∃ w', fold_left worse fs (Some w) = Some w'
        ∧ (gradeValues w' ≤ gradeValues w)%Z
        ∧ (w' = w ∨ ∃ f, In f fs ∧ fn_grade f = Some w')
        ∧ (∀ f g, In f fs → fn_grade f = Some g →
             (gradeValues w' ≤ gradeValues g)%Z).
Proof.
  induction fs as [| f fs IH]; intros w; simpl.
  - exists w. split; [reflexivity |]. split; [lia |]. split; [auto |].
    intros f g [].
  - destruct (fn_grade f) as [g |] eqn:Hg.
    + destruct (Z.ltb_spec (gradeValues g) (gradeValues w)) as [Hlt | Hge].
      * destruct (IH g) as (w' & -> & Hle & Hfrom & Hmin).
        exists w'. split; [reflexivity |]. split; [lia |]. split.
        -- right. destruct Hfrom as [-> | (f' & Hin & Hf')]; eauto.
        -- intros f' g' [<- | Hin] Hg'; [| eauto].
           rewrite Hg in Hg'. injection Hg' as <-. exact Hle.
      * destruct (IH w) as (w' & -> & Hle & Hfrom & Hmin).
        exists w'. split; [reflexivity |]. split; [lia |]. split.
        -- destruct Hfrom as [-> | (f' & Hin & Hf')]; eauto.
        -- intros f' g' [<- | Hin] Hg'; [| eauto].
           rewrite Hg in Hg'. injection Hg' as <-. lia.
    + destruct (IH w) as (w' & -> & Hle & Hfrom & Hmin).
      exists w'. split; [reflexivity |]. split; [lia |]. split.
      * destruct Hfrom as [-> | (f' & Hin & Hf')]; eauto.
      * intros f' g' [<- | Hin] Hg'; [congruence | eauto].
Qed.

Lemma fold_worse_none fs :
  match fold_left worse fs None with
  | Some w =>
      (∃ f, In f fs ∧ fn_grade f = Some w)
      ∧ (∀ f g, In f fs → fn_grade f = Some g →
           (gradeValues w ≤ gradeValues g)%Z)
  | None => ∀ f, In f fs → fn_grade f = None
  end.
Proof.
  induction fs as [| f fs IH]; simpl; [intros f [] |].
  destruct (fn_grade f) as [g |] eqn:Hg.
  - destruct (fold_worse_some fs g) as (w' & -> & Hle & Hfrom & Hmin). split.
    + destruct Hfrom as [-> | (f' & Hin & Hf')]; eauto.
    + intros f' g' [<- | Hin] Hg'; [| eauto].
      rewrite Hg in Hg'. injection Hg' as <-. exact Hle.
  - destruct (fold_left worse fs None) as [w |].
    + destruct IH as [(f1 & Hin & Hf1) Hmin]. split; [eauto |].
      intros f' g' [<- | Hin'] Hg'; [congruence | eauto].
    + intros f' [<- | Hin]; auto.
Qed.

End WorstGrade.

(** X13. The grade shown for an admin is the grade of one of its functions
    and no function of the admin has a grade of lower value; it is shown only
    for an admin with a likelihood. There is none exactly when the admin has
    no likelihood (or an empty one) or no function with a grade. *)
Theorem worstGrade_is_lowest
    (functions : list AdminsInventory.AdminFunction)
    (likelihood : option string) :
  match AdminsInventory.worstGrade functions likelihood with
  | Some w =>
      (∃ f, In f functions ∧ AdminsInventory.fn_grade f = Some w)
      ∧ (∀ f g, In f functions → AdminsInventory.fn_grade f = Some g →
           (AdminsInventory.gradeValues w ≤ AdminsInventory.gradeValues g)%Z)
      ∧ likelihood ≠ None ∧ likelihood ≠ Some EmptyString
  | None =>
      likelihood = None ∨ likelihood = Some EmptyString
      ∨ ∀ f, In f functions → AdminsInventory.fn_grade f = None
  end.
Proof.
  unfold AdminsInventory.worstGrade.
  destruct (Nat.ltb_spec 0 (length functions)) as [_ | Hlen]; cbn [andb].
  2: { right. right. destruct functions; [intros f [] | simpl in Hlen; lia]. }
  destruct likelihood as [[| c l] |]; cbn [Js.truthy]; auto.
  pose proof (fold_worse_none
    (List.filter (fun func => match AdminsInventory.fn_grade func with
                              | Some _ => true
                              | None => false
                              end) functions)) as H.
  destruct (fold_left _ _ None) as [w |].
  - destruct H as [(f & Hin & Hf) Hmin]. split; [| split].
    + apply filter_In in Hin as [Hin _]. eauto.
    + intros f' g Hin' Hg. apply (Hmin f' g); [| exact Hg].
      apply filter_In. rewrite Hg. auto.
    + split; discriminate.
  - right. right. intros f Hin.
    destruct (AdminsInventory.fn_grade f) as [g |] eqn:Hg; [| reflexivity].
    rewrite <- Hg. apply H. apply filter_In. rewrite Hg. auto.
Qed.

(** X14. The two colour tables agree with each other and with the values of
    the grades: two grades get the same text colour exactly when they get the
    same badge, and a grade whose value lies between those of two grades of
    one colour has that colour too. *)
Theorem grade_colours_follow_values (g h g' : AdminsInventory.LetterGrade) :
  (AdminsInventory.getGradeColor g = AdminsInventory.getGradeColor g'
   ↔ AdminsInventory.getGradeBadgeStyles g
     = AdminsInventory.getGradeBadgeStyles g')
  ∧ ((AdminsInventory.gradeValues g ≤ AdminsInventory.gradeValues h)%Z →
     (AdminsInventory.gradeValues h ≤ AdminsInventory.gradeValues g')%Z →
     AdminsInventory.getGradeColor g = AdminsInventory.getGradeColor g' →
     AdminsInventory.getGradeColor h = AdminsInventory.getGradeColor g).
Proof.
  split.
  - destruct g, g'; split; intros H; try reflexivity; discriminate H.
  - destruct g, h, g'; simpl; intros H1 H2 H3;
      try reflexivity; try lia; discriminate H3.
Qed.

Section ZeroAddress.

Import AdminsInventory.

(** Removing the first occurrence of a pattern removes one occurrence or
    leaves the text as it is. *)
Lemma replace_cases s pat :
  replace s pat "" = s
  ∨ ∃ pre post, s = pre +:+ pat +:+ post ∧ replace s pat "" = pre +:+ post.
Proof.
  induction s as [| c s IH].
  - simpl. destruct (Js.startsWith "" pat) eqn:Hp; [| left; reflexivity].
    right. exists EmptyString, EmptyString.
    destruct pat; [simpl; auto | discriminate].
  - cbn [replace]. destruct (Js.startsWith (String c s) pat) eqn:Hp.
    + right. exists EmptyString, (Js.slice_from (String.length pat) (String c s)).
      split; [apply startsWith_split; exact Hp | reflexivity].
    + destruct IH as [-> | (pre & post & Hs & ->)]; [left; reflexivity |].
      right. exists (String c pre), post. rewrite Hs at 1. auto.
Qed.

Lemma replace_at_start s pat repl :
  Js.startsWith s pat = true →
  replace s pat repl = repl +:+ Js.slice_from (String.length pat) s.
Proof. intros H. destruct s; cbn [replace]; rewrite H; reflexivity. Qed.

(** An occurrence that nothing before it can start is the first one. *)
Lemma replace_first_occurrence pre x pat post :
  all_in (fun c => negb (Ascii.eqb c x)) pre = true →
  replace (pre +:+ String x pat +:+ post) (String x pat) "" = pre +:+ post.
Proof.
  intros Hpre. induction pre as [| c pre IH].
  - change (EmptyString +:+ String x pat +:+ post)
      with (String x pat +:+ post).
    rewrite replace_at_start by apply startsWith_append.
    rewrite slice_from_append. reflexivity.
  - simpl in Hpre. apply andb_true_iff in Hpre as [Hc Hpre].
    change (String c pre +:+ String x pat +:+ post)
      with (String c (pre +:+ String x pat +:+ post)).
    cbn [replace Js.startsWith]. apply negb_true_iff in Hc. rewrite Hc.
    cbn [andb]. rewrite (IH Hpre). reflexivity.
Qed.

Lemma replace_absent s x pat :
  all_in (fun c => negb (Ascii.eqb c x)) s = true →
  replace s (String x pat) "" = s.
Proof.
  induction s as [| c s IH]; [reflexivity |]. simpl all_in.
  intros H. apply andb_true_iff in H as [Hc Hs].
  cbn [replace Js.startsWith]. apply negb_true_iff in Hc. rewrite Hc.
  cbn [andb]. rewrite (IH Hs). reflexivity.
Qed.

End ZeroAddress.

(** X15. An address counts as the zero address exactly when, in lower case,
    it is [0x] and forty zeros, with or without one marker [eth:] set in,
    wherever that is; the test is the same for any casing of the address. *)
Theorem isZeroAddress_spec (address : string) :
  AdminsInventory.isZeroAddress address = true
  ↔ ∃ pre marker post,
      Js.toLowerCase address = pre +:+ marker +:+ post
      ∧ (marker = EmptyString ∨ marker = "eth:")
      ∧ pre +:+ post = AdminsInventory.zeroAddress.
Proof.
  unfold AdminsInventory.isZeroAddress. rewrite String.eqb_eq.
  set (s := Js.toLowerCase address). split.
  - intros Hz.
    destruct (replace_cases s "eth:") as [Hsame | (pre & post & Hs & Hr)].
    + exists EmptyString, EmptyString, s. rewrite Hsame in Hz. auto.
    + exists pre, "eth:", post. rewrite Hr in Hz. auto.
  - intros (pre & marker & post & Hs & [-> | ->] & Hz).
    + rewrite Hs. cbn [String.append]. rewrite Hz.
      apply (replace_absent _ "e"%char). vm_compute. reflexivity.
    + rewrite Hs. rewrite <- Hz. apply (replace_first_occurrence pre "e"%char).
      assert (Hall : all_in (fun c => negb (Ascii.eqb c "e"%char))
                       (pre +:+ post) = true)
        by (rewrite Hz; vm_compute; reflexivity).
      rewrite all_in_append in Hall. apply andb_true_iff in Hall. tauto.
Qed.

Lemma find_append {A : Type} (P : A → bool) (l l' : list A) :
  find P (l ++ l')
  = match find P l with
    | Some x => Some x
    | None => find P l'
    end.
Proof.
  induction l as [| x l IH]; simpl; [reflexivity |].
  destruct (P x); [reflexivity | exact IH].
Qed.

Section CapitalKeys.

Import AdminsInventory.

(** The key tells the address from the name as long as names have no colon. *)
Lemma capitalKey_inj a f a' f' :
  colon_free f → colon_free f' →
  capitalKey a f = capitalKey a' f' → a = a' ∧ f = f'.
Proof.
  unfold capitalKey, colon_free. intros Hf Hf'. revert a'.
  induction a as [| c a IH]; intros [| c' a'] Hkey; simpl in Hkey.
  - injection Hkey as ->. auto.
  - injection Hkey as <- ->. rewrite all_in_append in Hf.
    simpl in Hf. rewrite andb_false_r in Hf. discriminate.
  - injection Hkey as -> <-. rewrite all_in_append in Hf'.
    simpl in Hf'. rewrite andb_false_r in Hf'. discriminate.
  - injection Hkey as -> Hkey. destruct (IH a' Hkey) as [-> ->]. auto.
Qed.

Context {FunctionCapitalAnalysis : Type}.
Context (contractAddress functionName : FunctionCapitalAnalysis → string).

Lemma capitalMap_fold_lookup fcs : ∀ (m : gmap string FunctionCapitalAnalysis) k,
  fold_left
    (fun m fc => <[capitalKey (contractAddress fc) (functionName fc) := fc]> m)
    fcs m !! k
  = match find (fun fc => String.eqb
                            (capitalKey (contractAddress fc) (functionName fc)) k)
            (rev fcs) with
    | Some fc => Some fc
    | None => m !! k
    end.
Proof.
  induction fcs as [| fc fcs IH]; intros m k; [reflexivity |].
  cbn [fold_left rev]. rewrite IH, find_append.
  destruct (find _ (rev fcs)); [reflexivity |]. cbn [find].
  destruct (String.eqb_spec
              (capitalKey (contractAddress fc) (functionName fc)) k)
    as [<- | Hne].
  - apply lookup_insert_eq.
  - apply lookup_insert_ne. exact Hne.
Qed.

End CapitalKeys.

(** X16. When function names have no colon, the capital analysis shown with
    a function is the last analysis in [functionsWithCapital] that has the
    function's contract address and name, and none is shown when there is no
    such analysis or no capital data. *)
Theorem capitalAnalysis_is_for_the_function
    {FunctionCapitalAnalysis : Type}
    (contractAddress functionName : FunctionCapitalAnalysis → string)
    (functionsWithCapital : list FunctionCapitalAnalysis)
    (func : AdminsInventory.AdminFunction) :
  AdminsInventory.colon_free (AdminsInventory.fn_functionName func) →
  (∀ fc, In fc functionsWithCapital →
         AdminsInventory.colon_free (functionName fc)) →
  AdminsInventory.capitalAnalysis contractAddress functionName
    (Some functionsWithCapital) func
  = find (fun fc =>
            (String.eqb (contractAddress fc)
               (AdminsInventory.fn_contractAddress func)
             && String.eqb (functionName fc)
                  (AdminsInventory.fn_functionName func))%bool)
      (rev functionsWithCapital)
  ∧ AdminsInventory.capitalAnalysis contractAddress functionName None func
    = None.
Proof.
  intros Hfunc Hfcs. split; [| apply lookup_empty].
  unfold AdminsInventory.capitalAnalysis, AdminsInventory.capitalMap.
  rewrite capitalMap_fold_lookup, lookup_empty.
  assert (Hsame : ∀ l, (∀ fc, In fc l → In fc functionsWithCapital) →
    find (fun fc => String.eqb
                      (AdminsInventory.capitalKey (contractAddress fc)
                         (functionName fc))
                      (AdminsInventory.capitalKey
                         (AdminsInventory.fn_contractAddress func)
                         (AdminsInventory.fn_functionName func))) l
    = find (fun fc =>
              (String.eqb (contractAddress fc)
                 (AdminsInventory.fn_contractAddress func)
               && String.eqb (functionName fc)
                    (AdminsInventory.fn_functionName func))%bool) l).
  { induction l as [| fc l IH]; intros Hsub; [reflexivity |]. cbn [find].
    rewrite IH by (intros fc' H; apply Hsub; right; exact H).
    assert (Hfc : AdminsInventory.colon_free (functionName fc))
      by (apply Hfcs, Hsub; left; reflexivity).
    destruct (String.eqb_spec
                (AdminsInventory.capitalKey (contractAddress fc) (functionName fc))
                (AdminsInventory.capitalKey
                   (AdminsInventory.fn_contractAddress func)
                   (AdminsInventory.fn_functionName func))) as [Hk | Hk].
    - destruct (capitalKey_inj _ _ _ _ Hfc Hfunc Hk) as [-> ->].
      rewrite !String.eqb_refl. reflexivity.
    - destruct (String.eqb_spec (contractAddress fc)
                  (AdminsInventory.fn_contractAddress func)) as [Ha | _];
        [| reflexivity].
      destruct (String.eqb_spec (functionName fc)
                  (AdminsInventory.fn_functionName func)) as [Hf | _];
        [| reflexivity].
      rewrite Ha, Hf in Hk. congruence. }
  rewrite Hsame; [| intros fc H; apply in_rev; exact H].
  destruct (find _ _); reflexivity.
Qed.

Lemma capitalAnalysis_is_for_the_function_witness :
  AdminsInventory.capitalAnalysis (fun fc => fst (fst fc)) (fun fc => snd (fst fc))
    (Some [("eth:0x1111", "pause", 1); ("eth:0x2222", "pause", 2);
           ("eth:0x1111", "pause", 3)])
    {| AdminsInventory.fn_contractAddress := "eth:0x1111";
       AdminsInventory.fn_functionName := "pause";
       AdminsInventory.fn_grade := None |}
  = Some ("eth:0x1111", "pause", 3).
Proof.
  destruct (capitalAnalysis_is_for_the_function
              (fun fc : string * string * nat => fst (fst fc))
              (fun fc => snd (fst fc))
              [("eth:0x1111", "pause", 1); ("eth:0x2222", "pause", 2);
               ("eth:0x1111", "pause", 3)]
              {| AdminsInventory.fn_contractAddress := "eth:0x1111";
                 AdminsInventory.fn_functionName := "pause";
                 AdminsInventory.fn_grade := None |}) as [H _].
  - reflexivity.
  - intros fc [<- | [<- | [<- | []]]]; reflexivity.
  - rewrite H. reflexivity.
Defined.

Lemma grade_colours_follow_values_witness :
  AdminsInventory.getGradeColor AdminsInventory.AA
  = AdminsInventory.getGradeColor AdminsInventory.A.
Proof.
  apply (grade_colours_follow_values AdminsInventory.A AdminsInventory.AA
           AdminsInventory.AAA).
  - unfold AdminsInventory.gradeValues. lia.
  - unfold AdminsInventory.gradeValues. lia.
  - reflexivity.
Defined.

(** The marker of another chain is not taken off. *)
Example isZeroAddress_other_chain :
  AdminsInventory.isZeroAddress
    "ETH:0X0000000000000000000000000000000000000000" = true
  ∧ AdminsInventory.isZeroAddress
      "arb1:0x0000000000000000000000000000000000000000" = false.
Proof. split; vm_compute; reflexivity. Qed.
